(** * Tetris: the game-state transition engine of [src/main.ts]

    A shallow embedding of the pure part of the game (the data model, [tick],
    the collision and bounds predicates, [clearFullRows], [rotateBlock] and
    the reducer that [scan] folds over the merged event stream), followed by
    the properties of the specification that concern it.

    Conventions of the embedding.
    - A JavaScript [number] that the game uses as a coordinate, a counter or a
      grid cell is an integer of [Z]; the tick interval and the centre of a
      block, which the code obtains by multiplying by [0.1] and by dividing by
      the number of points, are rationals of [Q].
    - A grid row is the only kind of array the program writes to by index
      ([updatedGrid[point.y][point.x] = 1]); it is modelled by [JsArray.t],
      which keeps what such a write does outside the row: it extends the row,
      leaving holes, or creates a named property.  The outer arrays and the
      blocks, which are only built by [map], [filter], spread and literals,
      are lists.
    - A function that can throw a [TypeError] returns an [option]; [None] is
      the exception.
    - [Math.random] is an oracle: every call of [newBlock] receives the
      tetromino key that the call draws. *)

From Stdlib Require Import ZArith QArith Qround List String Bool Lia.
Import ListNotations.

#[local] Open Scope Z_scope.

(** * The program *)

(** ** The error monad of a computation that may throw *)

Definition bind {A B : Type} (m : option A) (k : A -> option B) : option B :=
  match m with
  | Some a => k a
  | None => None
  end.

Notation "x <- m ;; k" := (bind m (fun x => k))
  (at level 61, m at next level, right associativity).
Notation "' p <- m ;; k" := (bind m (fun p => k))
  (at level 61, p pattern, m at next level, right associativity).

(** [arr[i]] on an array that is a list: [undefined] outside [0 .. length-1]. *)
Definition index {A : Type} (arr : list A) (i : Z) : option A :=
  if 0 <=? i then nth_error arr (Z.to_nat i) else None.

(** The list [l] with its element of index [n], when it has one, replaced. *)
Fixpoint replaceNth {A : Type} (n : nat) (a : A) (l : list A) : list A :=
  match l, n with
  | [], _ => []
  | _ :: l', O => a :: l'
  | a0 :: l', S n' => a0 :: replaceNth n' a l'
  end.

(** ** JavaScript arrays that are written to by index *)

Module JsArray.

(** A slot of the indexed part: a hole (never written), the value
    [undefined] (what spreading a hole yields), or an element. *)
Inductive slot (A : Type) : Type :=
| Hole
| Undefined
| Item (a : A).

Arguments Hole {A}.
Arguments Undefined {A}.
Arguments Item {A} a.

(** The indexed slots, and the properties whose key is an integer that is
    not an array index (negative, or above the largest index [2^32 - 2]),
    most recent first. *)
Record t (A : Type) : Type := mk {
  slots : list (slot A);
  named : list (Z * A)
}.

Arguments mk {A} slots named.
Arguments slots {A} _.
Arguments named {A} _.

Section Ops.
Context {A : Type}.

Definition length (arr : t A) : Z := Z.of_nat (List.length (slots arr)).

Definition is_index (i : Z) : bool := (0 <=? i) && (i <? 2 ^ 32 - 1).

Definition value (s : slot A) : option A :=
  match s with
  | Item a => Some a
  | _ => None
  end.

Fixpoint lookup (i : Z) (ps : list (Z * A)) : option A :=
  match ps with
  | [] => None
  | (k, a) :: ps' => if k =? i then Some a else lookup i ps'
  end.

(** [arr[i]] as a value; [None] is [undefined]. *)
Definition get (arr : t A) (i : Z) : option A :=
  if is_index i
  then match nth_error (slots arr) (Z.to_nat i) with
       | Some s => value s
       | None => None
       end
  else lookup i (named arr).

(** [arr[i] = a]: overwrites inside the array, extends it with holes beyond
    its end, and sets a named property when [i] is no index. *)
Definition set (arr : t A) (i : Z) (a : A) : t A :=
  if is_index i
  then if i <? length arr
       then mk (replaceNth (Z.to_nat i) (Item a) (slots arr)) (named arr)
       else mk (slots arr ++ repeat Hole (Z.to_nat (i - length arr)) ++ [Item a])
               (named arr)
  else mk (slots arr) ((i, a) :: named arr).

(** [[...arr]]: a fresh dense array; holes are read as [undefined] and named
    properties are not copied. *)
Definition spread (arr : t A) : t A :=
  mk (List.map (fun s => match s with Hole => Undefined | _ => s end) (slots arr)) [].

(** [arr.some(f)]: [f] is not called on holes; it sees [undefined] as
    [None]. *)
Definition some (f : option A -> bool) (arr : t A) : bool :=
  existsb (fun s => match s with
                    | Hole => false
                    | Undefined => f None
                    | Item a => f (Some a)
                    end) (slots arr).

(** [new Array(n).fill(a)] *)
Definition fill (n : Z) (a : A) : t A := mk (repeat (Item a) (Z.to_nat n)) [].

(** An array literal. *)
Definition of_list (l : list A) : t A := mk (List.map Item l) [].

End Ops.
End JsArray.

(** ** Constants *)

Module Constants.
Definition TICK_RATE_MS : Z := 200.
Definition GRID_WIDTH : Z := 10.
Definition GRID_HEIGHT : Z := 20.
End Constants.

(** ** Types *)

Record Point : Type := mkPoint { x : Z; y : Z }.

Definition Block : Type := list Point.

Inductive Cell : Type := EMPTY | FILLED.

Definition GameState : Type := list (JsArray.t Cell).

Inductive Direction : Type := LEFT | RIGHT | DOWN | NONE.

Record State : Type := mkState {
  gameEnd : bool;
  block : Block;
  direction : Direction;
  grid : list (JsArray.t Z);
  blockSettled : bool;
  gameGrid : GameState;
  score : Z;
  highscore : Z;
  nextBlock : Block;
  clearedRows : Z;
  currentLevel : Z;
  currentBlockType : string;
  gamePaused : bool
}.

(** The keys of [TETROMINOS], in the order of [Object.keys]. *)
Inductive TetrominoKey : Type := I_ | O_ | T_ | S_ | Z_ | J_ | L_.

(** Object spread with one overridden field, [{ ...s, f: v }]. *)
Definition withGameEnd (b : bool) (s : State) : State :=
  mkState b (block s) (direction s) (grid s) (blockSettled s) (gameGrid s)
          (score s) (highscore s) (nextBlock s) (clearedRows s) (currentLevel s)
          (currentBlockType s) (gamePaused s).

Definition withBlock (bl : Block) (s : State) : State :=
  mkState (gameEnd s) bl (direction s) (grid s) (blockSettled s) (gameGrid s)
          (score s) (highscore s) (nextBlock s) (clearedRows s) (currentLevel s)
          (currentBlockType s) (gamePaused s).

Definition withDirection (d : Direction) (s : State) : State :=
  mkState (gameEnd s) (block s) d (grid s) (blockSettled s) (gameGrid s)
          (score s) (highscore s) (nextBlock s) (clearedRows s) (currentLevel s)
          (currentBlockType s) (gamePaused s).

Definition withBlockSettled (b : bool) (s : State) : State :=
  mkState (gameEnd s) (block s) (direction s) (grid s) b (gameGrid s)
          (score s) (highscore s) (nextBlock s) (clearedRows s) (currentLevel s)
          (currentBlockType s) (gamePaused s).

Definition withHighscore (h : Z) (s : State) : State :=
  mkState (gameEnd s) (block s) (direction s) (grid s) (blockSettled s) (gameGrid s)
          (score s) h (nextBlock s) (clearedRows s) (currentLevel s)
          (currentBlockType s) (gamePaused s).

Definition withGamePaused (b : bool) (s : State) : State :=
  mkState (gameEnd s) (block s) (direction s) (grid s) (blockSettled s) (gameGrid s)
          (score s) (highscore s) (nextBlock s) (clearedRows s) (currentLevel s)
          (currentBlockType s) b.

(** ** Tetromino operations *)

Definition createSquareBlock (x0 y0 : Z) : Block :=
  [ mkPoint x0 y0; mkPoint (x0 + 1) y0; mkPoint x0 (y0 + 1); mkPoint (x0 + 1) (y0 + 1) ].

Definition TETROMINOS (k : TetrominoKey) : Block :=
  match k with
  | I_ => [ mkPoint 4 0; mkPoint 4 1; mkPoint 4 2; mkPoint 4 3 ]
  | O_ => [ mkPoint 4 0; mkPoint 5 0; mkPoint 4 1; mkPoint 5 1 ]
  | T_ => [ mkPoint 4 0; mkPoint 3 1; mkPoint 4 1; mkPoint 5 1 ]
  | S_ => [ mkPoint 4 0; mkPoint 5 0; mkPoint 3 1; mkPoint 4 1 ]
  | Z_ => [ mkPoint 3 0; mkPoint 4 0; mkPoint 4 1; mkPoint 5 1 ]
  | J_ => [ mkPoint 3 0; mkPoint 3 1; mkPoint 4 1; mkPoint 5 1 ]
  | L_ => [ mkPoint 5 0; mkPoint 3 1; mkPoint 4 1; mkPoint 5 1 ]
  end.

(** [newBlock()], given the key that [Math.random] selects. *)
Definition newBlock (randomKey : TetrominoKey) : Block :=
  map (fun point => mkPoint (x point) (y point)) (TETROMINOS randomKey).

(** ** Game initialisation *)

Definition STARTING_POSITION : Point := mkPoint (Constants.GRID_WIDTH / 2 - 1) 0.

Definition emptyGameGrid : GameState :=
  repeat (JsArray.fill Constants.GRID_WIDTH EMPTY) (Z.to_nat Constants.GRID_HEIGHT).

(** [initialState] is evaluated once, when the module is loaded; [k0] is the
    key drawn by its single call of [newBlock]. *)
Definition initialState (k0 : TetrominoKey) : State := {|
  gameEnd := false;
  block := createSquareBlock (x STARTING_POSITION) (y STARTING_POSITION);
  direction := NONE;
  grid := repeat (JsArray.fill Constants.GRID_WIDTH 0) (Z.to_nat Constants.GRID_HEIGHT);
  blockSettled := false;
  gameGrid := emptyGameGrid;
  score := 0;
  nextBlock := newBlock k0;
  highscore := 0;
  clearedRows := 0;
  currentLevel := 1;
  currentBlockType := "I";
  gamePaused := false
|}.

(** ** Game mechanics *)

Definition getTickRate (clearedRows : Z) : Q :=
  if clearedRows <? 1 then (inject_Z Constants.TICK_RATE_MS * 1)%Q
  else if clearedRows >=? 1 then (inject_Z Constants.TICK_RATE_MS * 0.1)%Q
  else (inject_Z Constants.TICK_RATE_MS * 0.1)%Q.

(** [cell === n] on a value read from a row. *)
Definition isNumber (n : Z) (cell : option Z) : bool :=
  match cell with
  | Some c => c =? n
  | None => false
  end.

(** [cell !== 'FILLED'] on a value read from a row; [undefined] is not
    ['FILLED']. *)
Definition notFilled (cell : option Cell) : bool :=
  match cell with
  | Some FILLED => false
  | _ => true
  end.

Definition willCollide (block : Block) (grid : list (JsArray.t Z)) : bool :=
  existsb (fun point =>
    let collidesWithBottom := y point >=? Constants.GRID_HEIGHT in
    let collidesWithBlock :=
      match index grid (y point) with
      | Some row => isNumber 1 (JsArray.get row (x point))
      | None => false
      end in
    collidesWithBottom || collidesWithBlock) block.

Definition isOutOfBound (block : Block) : bool :=
  existsb (fun point => (x point <? 0) || (x point >=? Constants.GRID_WIDTH)) block.

Module Cleared.
Record t : Type := mk {
  newGrid : list (JsArray.t Z);
  newGameGrid : GameState;
  clearedRows : Z
}.
End Cleared.

(** [Array.from({ length: n }, () => row)], where evaluating [row] may throw:
    the callback runs once per element, so not at all when [n] is [0]. *)
Definition arrayFrom {A : Type} (n : Z) (row : option A) : option (list A) :=
  if n <=? 0 then Some []
  else r <- row ;; Some (repeat r (Z.to_nat n)).

(** [row.some(cell => cell === 0)] *)
Definition hasFreeCell (row : JsArray.t Z) : bool := JsArray.some (isNumber 0) row.

(** [row.some(cell => cell !== 'FILLED')] *)
Definition hasUnfilledCell (row : JsArray.t Cell) : bool := JsArray.some notFilled row.

Definition clearFullRows (grid : list (JsArray.t Z)) (gameGrid : GameState)
  : option Cleared.t :=
  let newGrid := filter hasFreeCell grid in
  let newGameGrid := filter hasUnfilledCell gameGrid in
  let clearedRows := Z.of_nat (List.length grid) - Z.of_nat (List.length newGrid) in
  emptyRows <- arrayFrom clearedRows
                 (row0 <- index grid 0 ;; Some (JsArray.fill (JsArray.length row0) 0)) ;;
  emptyGameRows <- arrayFrom clearedRows
                 (row0 <- index gameGrid 0 ;; Some (JsArray.fill (JsArray.length row0) EMPTY)) ;;
  let finalGrid := emptyRows ++ newGrid in
  let finalGameGrid := emptyGameRows ++ newGameGrid in
  Some (Cleared.mk finalGrid finalGameGrid clearedRows).

(** ** State management *)

(** [l.forEach(f)] for a body that updates local state and may throw. *)
Fixpoint forEach {A S : Type} (f : S -> A -> option S) (l : list A) (s : S) : option S :=
  match l with
  | [] => Some s
  | a :: l' => s' <- f s a ;; forEach f l' s'
  end.

(** [rows[i][j] = v]: a [TypeError] when [rows[i]] is [undefined]. *)
Definition setCell {A : Type} (rows : list (JsArray.t A)) (i j : Z) (v : A)
  : option (list (JsArray.t A)) :=
  row <- index rows i ;;
  Some (replaceNth (Z.to_nat i) (JsArray.set row j v) rows).

(** The body of the [forEach] of the settled branch. *)
Definition stamp (grids : list (JsArray.t Z) * GameState) (point : Point)
  : option (list (JsArray.t Z) * GameState) :=
  let '(updatedGrid, updatedGameGrid) := grids in
  updatedGrid' <- setCell updatedGrid (y point) (x point) 1 ;;
  updatedGameGrid' <- setCell updatedGameGrid (y point) (x point) FILLED ;;
  Some (updatedGrid', updatedGameGrid').

(** The copies of the two grids with the falling block written into them. *)
Definition stampBlock (s : State) : option (list (JsArray.t Z) * GameState) :=
  let updatedGrid := map JsArray.spread (grid s) in
  let updatedGameGrid := map JsArray.spread (gameGrid s) in
  forEach stamp (block s) (updatedGrid, updatedGameGrid).

Definition xShiftOf (d : Direction) : Z :=
  match d with
  | LEFT => -1
  | RIGHT => 1
  | _ => 0
  end.

(** [tick(s)]; [k1] and [k2] are the keys drawn by the first and by the
    second call of [newBlock], when the calls happen. *)
Definition tick (k1 k2 : TetrominoKey) (s : State) : option State :=
  if gameEnd s || gamePaused s then Some s
  else if blockSettled s then
    '(updatedGrid, updatedGameGrid) <- stampBlock s ;;
    let newGeneratedBlock := newBlock k1 in
    if willCollide newGeneratedBlock updatedGrid then Some (withGameEnd true s)
    else
      row0 <- index updatedGrid 0 ;;
      if JsArray.some (isNumber 1) row0 then Some (withGameEnd true s)
      else
        cleared <- clearFullRows updatedGrid updatedGameGrid ;;
        let newScore := score s + 10 * Cleared.clearedRows cleared in
        let newLevel := if Cleared.clearedRows cleared >? 0
                        then currentLevel s + 1 else currentLevel s in
        Some {|
          gameEnd := gameEnd s;
          block := nextBlock s;
          direction := NONE;
          grid := Cleared.newGrid cleared;
          blockSettled := false;
          gameGrid := Cleared.newGameGrid cleared;
          score := newScore;
          highscore := highscore s;
          nextBlock := newBlock k2;
          clearedRows := clearedRows s;
          currentLevel := newLevel;
          currentBlockType := currentBlockType s;
          gamePaused := gamePaused s
        |}
  else
    let xShift := xShiftOf (direction s) in
    let nextBlock := map (fun p => mkPoint (x p + xShift) (y p + 1)) (block s) in
    (* [nextBlock.forEach(p => p.x -= xShift)] updates the fresh points in place *)
    let nextBlock :=
      if isOutOfBound nextBlock
      then map (fun p => mkPoint (x p - xShift) (y p)) nextBlock
      else nextBlock in
    if willCollide nextBlock (grid s) then Some (withBlockSettled true s)
    else Some (withDirection NONE (withBlock nextBlock s)).

(** ** Block manipulations *)

(** A point with fractional coordinates: the centre of a block.  The sum,
    the division and the rounding below are those of the rationals; they are
    those of the source, which computes in binary64, for blocks of four
    points (the centre is then a multiple of a quarter) whose coordinates are
    far below [2^50] in magnitude, as are all blocks of a game.  Properties
    of other blocks are stated with that restriction. *)
Record Centre : Type := mkCentre { cx : Q; cy : Q }.

(** [Math.round]: the nearest integer, a half rounding up. *)
Definition Math_round (q : Q) : Z := Qfloor (q + (1 # 2))%Q.

Definition getBlockCenter (block : Block) : Centre :=
  let sum := fold_left (fun acc p => mkPoint (x acc + x p) (y acc + y p)) block (mkPoint 0 0) in
  let length := Z.of_nat (List.length block) in
  mkCentre (inject_Z (x sum) / inject_Z length)%Q (inject_Z (y sum) / inject_Z length)%Q.

Definition rotatePoint (point : Point) (origin : Centre) : Point :=
  mkPoint (Math_round (cx origin + inject_Z (y point) - cy origin)%Q)
          (Math_round (cy origin - inject_Z (x point) + cx origin)%Q).

Definition rotateBlock (block : Block) (type : string) : Block :=
  if String.eqb type "O" then block
  else
    let origin := getBlockCenter block in
    map (fun p => rotatePoint p origin) block.

(** ** The reducer of [game$] *)

(** The events of the merged stream.  [TICK] carries the keys that the tick
    draws; [KEY d] is the string emitted by [direction$], whose first value is
    ['NONE']. *)
Inductive Event : Type :=
| TICK (k1 k2 : TetrominoKey)
| KEY (d : Direction)
| RESTART
| ROTATE
| PAUSE.

(** The accumulator of [scan] together with the current value of the
    [tickRate$] subject, which the reducer reads and writes. *)
Record World : Type := mkWorld { state : State; tickRate : Q }.

Definition reduce (k0 : TetrominoKey) (w : World) (event : Event) : option World :=
  let state := state w in
  match event with
  | TICK k1 k2 =>
      newState <- tick k1 k2 state ;;
      let newRate := getTickRate (clearedRows newState) in
      Some (mkWorld newState
              (if negb (Qeq_bool newRate (tickRate w)) then newRate else tickRate w))
  | KEY NONE => Some w
  | KEY d =>
      if match direction state with NONE => true | _ => false end
      then Some (mkWorld (withDirection d state) (tickRate w))
      else Some w
  | RESTART =>
      Some (mkWorld (withHighscore (highscore state) (initialState k0))
              (inject_Z Constants.TICK_RATE_MS))
  | ROTATE =>
      let newBlock := rotateBlock (block state) (currentBlockType state) in
      if negb (isOutOfBound newBlock) && negb (willCollide newBlock (grid state))
      then Some (mkWorld (withBlock newBlock state) (tickRate w))
      else (* no [return] here: control falls through to [case 'PAUSE'] *)
        Some (mkWorld (withGamePaused (negb (gamePaused state)) state) (tickRate w))
  | PAUSE =>
      Some (mkWorld (withGamePaused (negb (gamePaused state)) state) (tickRate w))
  end.

Definition initialWorld (k0 : TetrominoKey) : World :=
  mkWorld (initialState k0) (inject_Z Constants.TICK_RATE_MS).

(** The fold of [scan] over a finite prefix of the event stream. *)
Fixpoint run (k0 : TetrominoKey) (events : list Event) (w : World) : option World :=
  match events with
  | [] => Some w
  | event :: events' => w' <- reduce k0 w event ;; run k0 events' w'
  end.

(** The worlds that the fold can reach.  The subscriber stops the fold once
    [gameEnd] is set; the relation does not, and so contains every world of a
    game. *)
Inductive reachable (k0 : TetrominoKey) : World -> Prop :=
| reachable_init : reachable k0 (initialWorld k0)
| reachable_step (w w' : World) (event : Event) :
    reachable k0 w -> reduce k0 w event = Some w' -> reachable k0 w'.

(** * The vocabulary of the specification *)

(** [rows[p.y][p.x]], read as a value. *)
Definition cellAt {A : Type} (rows : list (JsArray.t A)) (p : Point) : option A :=
  row <- index rows (y p) ;; JsArray.get row (x p).

(** A block is written into a pair of grids when each of its points reads
    [1] in the first and ['FILLED'] in the second. *)
Definition stamped (b : Block) (grids : list (JsArray.t Z) * GameState) : Prop :=
  forall p, In p b -> cellAt (fst grids) p = Some 1 /\ cellAt (snd grids) p = Some FILLED.

(** The number of full rows of an occupancy grid: the rows without a free
    cell. *)
Definition fullRows (grid : list (JsArray.t Z)) : Z :=
  Z.of_nat (List.length (filter (fun row => negb (hasFreeCell row)) grid)).

(** The second end condition: a cell of the top row is occupied. *)
Definition topRowOccupied (grid : list (JsArray.t Z)) : Prop :=
  exists row0, index grid 0 = Some row0 /\ JsArray.some (isNumber 1) row0 = true.

(** The state that the settled branch returns when the game goes on. *)
Definition spawned (k2 : TetrominoKey) (s : State) (c : Cleared.t) : State := {|
  gameEnd := gameEnd s;
  block := nextBlock s;
  direction := NONE;
  grid := Cleared.newGrid c;
  blockSettled := false;
  gameGrid := Cleared.newGameGrid c;
  score := score s + 10 * Cleared.clearedRows c;
  highscore := highscore s;
  nextBlock := newBlock k2;
  clearedRows := clearedRows s;
  currentLevel := if Cleared.clearedRows c >? 0 then currentLevel s + 1 else currentLevel s;
  currentBlockType := currentBlockType s;
  gamePaused := gamePaused s
|}.

(** The three blocks that the specification of the falling branch speaks of:
    the block moved down and sideways, the block moved down only, and the one
    of the two that [tick] tests for a collision. *)
Definition shifted (d : Direction) (b : Block) : Block :=
  map (fun p => mkPoint (x p + xShiftOf d) (y p + 1)) b.

Definition dropped (b : Block) : Block :=
  map (fun p => mkPoint (x p) (y p + 1)) b.

Definition candidate (s : State) : Block :=
  if isOutOfBound (shifted (direction s) (block s))
  then dropped (block s)
  else shifted (direction s) (block s).

(** The rows form a grid of [h] rows of width [w]. *)
Definition rectangular {A : Type} (h w : Z) (rows : list (JsArray.t A)) : Prop :=
  Z.of_nat (List.length rows) = h /\ Forall (fun row => JsArray.length row = w) rows.

(** What the specification says of the result of [clearFullRows]: the count
    is the number of full rows; each new grid is that many fresh empty rows
    followed by the rows of the input that are not full, in their order; both
    have the dimensions of the input. *)
Definition clears_full_rows (h w : Z) (grid : list (JsArray.t Z)) (gameGrid : GameState)
  : Prop :=
  exists c,
    clearFullRows grid gameGrid = Some c /\
    Cleared.clearedRows c = fullRows grid /\
    Cleared.newGrid c
      = repeat (JsArray.fill w 0) (Z.to_nat (fullRows grid)) ++ filter hasFreeCell grid /\
    Cleared.newGameGrid c
      = repeat (JsArray.fill w EMPTY) (Z.to_nat (fullRows grid))
        ++ filter hasUnfilledCell gameGrid /\
    rectangular h w (Cleared.newGrid c) /\
    rectangular h w (Cleared.newGameGrid c).

(** The two grids agree on which rows are full. *)
Definition lockstep (grid : list (JsArray.t Z)) (gameGrid : GameState) : Prop :=
  Forall2 (fun row gameRow => hasFreeCell row = hasUnfilledCell gameRow) grid gameGrid.

(** The two views of one cell. *)
Definition cellSynced (c : JsArray.slot Z) (g : JsArray.slot Cell) : Prop :=
  (c = JsArray.Item 0 /\ g = JsArray.Item EMPTY) \/
  (c = JsArray.Item 1 /\ g = JsArray.Item FILLED).

(** The two views of one row of the playing field. *)
Definition rowSynced (row : JsArray.t Z) (gameRow : JsArray.t Cell) : Prop :=
  JsArray.length row = Constants.GRID_WIDTH /\
  Forall2 cellSynced (JsArray.slots row) (JsArray.slots gameRow).

(** The invariant of the data model: the cell-state grid shows ['FILLED']
    exactly where the occupancy grid shows [1]. *)
Definition synced (grid : list (JsArray.t Z)) (gameGrid : GameState) : Prop :=
  Forall2 rowSynced grid gameGrid.

Definition inColumns (b : Block) : Prop :=
  Forall (fun p => 0 <= x p < Constants.GRID_WIDTH) b.

(** What every state of a game satisfies. *)
Record wellFormed (s : State) : Prop := {
  wf_block : inColumns (block s);
  wf_nextBlock : inColumns (nextBlock s);
  wf_grids : synced (grid s) (gameGrid s)
}.

(** What every world of a game satisfies. *)
Record invariant (w : World) : Prop := {
  inv_type : currentBlockType (state w) = "I"%string;
  inv_highscore : highscore (state w) = 0;
  inv_clearedRows : clearedRows (state w) = 0;
  inv_tickRate : tickRate w = inject_Z Constants.TICK_RATE_MS
}.

(** ** The claims that fail as the specification states them *)

(** A pending [DOWN] and no pending direction give the same state. *)
Definition down_as_none (k1 k2 : TetrominoKey) (s : State) : Prop :=
  gameEnd s = false -> gamePaused s = false -> blockSettled s = false ->
  tick k1 k2 (withDirection DOWN s) = tick k1 k2 (withDirection NONE s).

(** The grids of a state that [tick] has just terminated show the settled
    block. *)
Definition game_over_shows_block (k1 k2 : TetrominoKey) (s : State) : Prop :=
  gameEnd s = false -> gamePaused s = false -> blockSettled s = true ->
  forall s', tick k1 k2 s = Some s' -> gameEnd s' = true ->
  stamped (block s) (grid s', gameGrid s').

(** [clearFullRows] does what the specification says on every pair of grids
    of the same dimensions. *)
Definition clearFullRows_keeps_dimensions (grid : list (JsArray.t Z)) (gameGrid : GameState)
  : Prop :=
  forall h w, rectangular h w grid -> rectangular h w gameGrid ->
  clears_full_rows h w grid gameGrid.

(** ** States and runs used as concrete inputs *)

(** The grids with the given rows of cells, top row first. *)
Definition gridOf (rows : list (list Z)) : list (JsArray.t Z) :=
  map JsArray.of_list rows.

Definition gameGridOf (rows : list (list Z)) : GameState :=
  map (fun row => JsArray.of_list (map (fun c => if c =? 1 then FILLED else EMPTY) row)) rows.

(** A state of the game in progress, with both grids showing [rows]. *)
Definition playing (k0 : TetrominoKey) (rows : list (list Z)) (b next : Block)
    (settled : bool) : State := {|
  gameEnd := false;
  block := b;
  direction := NONE;
  grid := gridOf rows;
  blockSettled := settled;
  gameGrid := gameGridOf rows;
  score := 0;
  nextBlock := next;
  highscore := 0;
  clearedRows := 0;
  currentLevel := 1;
  currentBlockType := "I";
  gamePaused := false
|}.

Definition emptyRow : list Z := [0; 0; 0; 0; 0; 0; 0; 0; 0; 0].

(** A square resting on the floor of the empty grid. *)
Definition restingSquare : State :=
  playing I_ (repeat emptyRow 20) (createSquareBlock 4 18) (newBlock I_) false.


(** Nine squares piled up in the spawning columns and a tenth one settled on
    top of them, in the two top rows. *)
Definition stackedSquares : State :=
  playing O_ (repeat emptyRow 2 ++ repeat [0; 0; 0; 0; 1; 1; 0; 0; 0; 0] 18)
    (createSquareBlock 4 0) (newBlock O_) true.

(** A bar settled in the gap of the bottom row. *)
Definition rowCompleting : State :=
  playing I_ (repeat emptyRow 18 ++ [ [0; 0; 0; 0; 0; 0; 0; 0; 1; 1];
                                      [1; 1; 1; 1; 0; 0; 0; 0; 1; 1] ])
    [ mkPoint 4 19; mkPoint 5 19; mkPoint 6 19; mkPoint 7 19 ] (newBlock I_) true.

(** The game of [rowCompleting] one tick later: the row is gone and the
    score is [10]. *)
Definition rowCleared : State := {|
  gameEnd := false;
  block := newBlock I_;
  direction := NONE;
  grid := gridOf (repeat emptyRow 19 ++ [ [0; 0; 0; 0; 0; 0; 0; 0; 1; 1] ]);
  blockSettled := false;
  gameGrid := gameGridOf (repeat emptyRow 19 ++ [ [0; 0; 0; 0; 0; 0; 0; 0; 1; 1] ]);
  score := 10;
  highscore := 0;
  nextBlock := newBlock I_;
  clearedRows := 0;
  currentLevel := 2;
  currentBlockType := "I";
  gamePaused := false
|}.

(** A bar against the left wall, above a square in the right corner. *)
Definition barAtLeftWall : State :=
  playing I_ (repeat emptyRow 18 ++ [ [0; 0; 0; 0; 0; 0; 0; 0; 1; 1];
                                      [0; 0; 0; 0; 0; 0; 0; 0; 1; 1] ])
    [ mkPoint 0 4; mkPoint 0 5; mkPoint 0 6; mkPoint 0 7 ] (newBlock I_) false.

(** The events that bring the first square into the right corner, ... *)
Definition dropSquareRight : list Event :=
  [ KEY NONE; KEY RIGHT; TICK O_ I_; KEY RIGHT; TICK O_ I_; KEY RIGHT; TICK O_ I_;
    KEY RIGHT; TICK O_ I_ ] ++ repeat (TICK O_ I_) 16.

(** ... lay a bar into the left corner, ... *)
Definition dropBarLeft : list Event :=
  [ ROTATE; KEY LEFT; TICK O_ I_; KEY LEFT; TICK O_ I_; KEY LEFT; TICK O_ I_ ]
  ++ repeat (TICK O_ I_) 16.

(** ... lay a bar between the two, ... *)
Definition dropBarMiddle : list Event :=
  [ ROTATE; KEY RIGHT; TICK O_ I_ ] ++ repeat (TICK O_ I_) 17.

(** ... or move an upright bar to the left wall. *)
Definition walkBarLeft : list Event :=
  [ KEY LEFT; TICK O_ I_; KEY LEFT; TICK O_ I_; KEY LEFT; TICK O_ I_; KEY LEFT; TICK O_ I_ ].

(** * Further vocabulary *)

(** The block moved by [dx] columns and [dy] rows. *)
Definition translate (dx dy : Z) (b : Block) : Block :=
  map (fun p => mkPoint (x p + dx) (y p + dy)) b.

(** [n] rotations, as [ROTATE] performs them in a game. *)
Fixpoint rotations (n : nat) (b : Block) : Block :=
  match n with
  | O => b
  | S n' => rotateBlock (rotations n' b) "I"
  end.

(** The displacement of a tetromino after four rotations. *)
Definition drift (k : TetrominoKey) : Z * Z :=
  match k with
  | I_ | S_ | Z_ => (2, 2)
  | J_ | L_ => (1, 1)
  | O_ | T_ => (0, 0)
  end.

(** Coordinates at which the arithmetic of [getBlockCenter] and
    [rotateBlock] is exact in the numbers of the source: the sums of four
    such coordinates, their quarters, and the sums and differences that are
    rounded all have an exact binary64 value. *)
Definition smallBlock (b : Block) : Prop :=
  Forall (fun p => Z.abs (x p) <= 2 ^ 30 /\ Z.abs (y p) <= 2 ^ 30) b.

(** Object spread with the next block overridden. *)
Definition withNextBlock (b : Block) (s : State) : State :=
  mkState (gameEnd s) (block s) (direction s) (grid s) (blockSettled s) (gameGrid s)
          (score s) (highscore s) b (clearedRows s) (currentLevel s)
          (currentBlockType s) (gamePaused s).

Definition isTick (event : Event) : bool :=
  match event with
  | TICK _ _ => true
  | _ => false
  end.

(** The fold as the subscriber of [game$] sees it: every event yields a
    state, and the subscriber unsubscribes when it is handed a state whose
    [gameEnd] is set, so that no later event is reduced. *)
Fixpoint play (k0 : TetrominoKey) (events : list Event) (w : World) : option World :=
  match events with
  | [] => Some w
  | event :: events' =>
      w' <- reduce k0 w event ;;
      if gameEnd (state w') then Some w' else play k0 events' w'
  end.

(** A block that is a tetromino, rotated any number of times and moved
    sideways and down from where the rotations of the spawned piece put it. *)
Definition spawnShape (b : Block) : Prop :=
  exists k n dx dy, 0 <= dy /\ b = translate dx dy (rotations n (TETROMINOS k)).

(** What every state of a game satisfies, beyond [wellFormed]. *)
Record playable (s : State) : Prop := {
  pl_type : currentBlockType s = "I"%string;
  pl_wellFormed : wellFormed s;
  pl_rows : Z.of_nat (List.length (grid s)) = Constants.GRID_HEIGHT;
  pl_noFullRow : fullRows (grid s) = 0;
  pl_floor : Forall (fun p => y p < Constants.GRID_HEIGHT) (block s);
  pl_shape : spawnShape (block s);
  pl_next : exists k, nextBlock s = newBlock k;
  pl_score : exists m, score s = 10 * m /\ currentLevel s - 1 <= m <= 4 * (currentLevel s - 1)
}.

(** A bar that has settled with its upper end above the grid. *)
Definition barAboveTop : State :=
  playing I_ (repeat emptyRow 3 ++ repeat [0; 0; 0; 0; 0; 1; 0; 0; 0; 0] 17)
    [ mkPoint 5 2; mkPoint 5 1; mkPoint 5 0; mkPoint 5 (-1) ] (newBlock I_) true.

(** * Lemmas *)

(** ** Reading a cell after writing one *)

Lemma nth_error_replaceNth_same {A : Type} (n : nat) (a : A) (l : list A) :
  (n < List.length l)%nat -> nth_error (replaceNth n a l) n = Some a.
Proof.
  revert n; induction l as [| a0 l IH]; intros [| n] H; simpl in *; try lia.
  - reflexivity.
  - apply IH; lia.
Qed.

Lemma nth_error_replaceNth_other {A : Type} (n m : nat) (a : A) (l : list A) :
  n <> m -> nth_error (replaceNth m a l) n = nth_error l n.
Proof.
  revert n m; induction l as [| a0 l IH]; intros [| n] [| m] H; simpl;
    try reflexivity; try congruence.
  apply IH; congruence.
Qed.

Lemma length_replaceNth {A : Type} (n : nat) (a : A) (l : list A) :
  List.length (replaceNth n a l) = List.length l.
Proof.
  revert n; induction l as [| a0 l IH]; intros [| n]; simpl; auto.
Qed.

Module JsArrayFacts.
Import JsArray.

Section Facts.
Context {A : Type}.
Implicit Types (arr : t A) (i j : Z) (a : A).

Lemma get_set_same arr i a : get (set arr i a) i = Some a.
Proof.
  unfold get, set. destruct (is_index i) eqn:Hi.
  - assert (H0 : 0 <= i) by (apply andb_true_iff in Hi as [H0 _]; now apply Z.leb_le).
    unfold length. destruct (i <? _) eqn:Hlt; simpl.
    + apply Z.ltb_lt in Hlt.
      rewrite nth_error_replaceNth_same by lia. reflexivity.
    + apply Z.ltb_ge in Hlt.
      rewrite nth_error_app2 by lia.
      rewrite nth_error_app2 by (rewrite repeat_length; lia).
      rewrite repeat_length.
      replace (_ - _ - _)%nat with O by lia. reflexivity.
  - simpl. now rewrite Z.eqb_refl.
Qed.

Lemma get_set_other arr i j a : i <> j -> get (set arr j a) i = get arr i.
Proof.
  intros Hij. unfold get, set.
  destruct (is_index i) eqn:Hi, (is_index j) eqn:Hj; simpl.
  - apply andb_true_iff in Hi as [Hi _], Hj as [Hj _].
    apply Z.leb_le in Hi, Hj.
    destruct (j <? length arr) eqn:Hlt; simpl.
    { rewrite nth_error_replaceNth_other by lia. reflexivity. }
    apply Z.ltb_ge in Hlt. unfold length in *.
    destruct (Z_lt_le_dec i (Z.of_nat (List.length (slots arr)))) as [Hin | Hout].
    { rewrite nth_error_app1 by lia. reflexivity. }
    rewrite nth_error_app2 by lia.
    replace (nth_error (slots arr) (Z.to_nat i)) with (@None (slot A))
      by (symmetry; apply nth_error_None; lia).
    destruct (Z_lt_le_dec i j) as [Hlo | Hhi].
    + rewrite nth_error_app1 by (rewrite repeat_length; lia).
      rewrite nth_error_repeat by lia. reflexivity.
    + replace (nth_error _ _) with (@None (slot A)); [reflexivity |].
      symmetry; apply nth_error_None.
      rewrite length_app, repeat_length; simpl. lia.
  - reflexivity.
  - now destruct (j <? length arr).
  - destruct (j =? i) eqn:E; [apply Z.eqb_eq in E; congruence | reflexivity].
Qed.

Lemma get_set_keep arr i j a : get arr i = Some a -> get (set arr j a) i = Some a.
Proof.
  intros H. destruct (Z.eq_dec i j) as [-> | Hij].
  - apply get_set_same.
  - now rewrite get_set_other.
Qed.

End Facts.
End JsArrayFacts.

Lemma index_replaceNth_same {A : Type} (l : list A) (i : Z) (a a' : A) :
  index l i = Some a -> index (replaceNth (Z.to_nat i) a' l) i = Some a'.
Proof.
  unfold index. destruct (0 <=? i); [| discriminate].
  intros H. apply nth_error_replaceNth_same.
  apply nth_error_Some. congruence.
Qed.

Lemma index_replaceNth_other {A : Type} (l : list A) (i j : Z) (a : A) :
  i <> j -> 0 <= j -> index (replaceNth (Z.to_nat j) a l) i = index l i.
Proof.
  intros Hij Hj. unfold index. destruct (0 <=? i) eqn:Hi; [| reflexivity].
  apply Z.leb_le in Hi. apply nth_error_replaceNth_other. lia.
Qed.

Lemma index_Some_nonneg {A : Type} (l : list A) (i : Z) (a : A) :
  index l i = Some a -> 0 <= i.
Proof.
  unfold index. destruct (0 <=? i) eqn:Hi; [| discriminate].
  intros _. now apply Z.leb_le.
Qed.

Lemma setCell_same {A : Type} (rows rows' : list (JsArray.t A)) (i j : Z) (v : A) :
  setCell rows i j v = Some rows' -> cellAt rows' (mkPoint j i) = Some v.
Proof.
  unfold setCell, cellAt; simpl.
  destruct (index rows i) as [row |] eqn:Hrow; simpl; [| discriminate].
  intros [= <-]. rewrite (index_replaceNth_same _ _ _ _ Hrow); simpl.
  apply JsArrayFacts.get_set_same.
Qed.

Lemma setCell_keep {A : Type} (rows rows' : list (JsArray.t A)) (i j : Z) (v : A) (p : Point) :
  setCell rows i j v = Some rows' -> cellAt rows p = Some v -> cellAt rows' p = Some v.
Proof.
  unfold setCell, cellAt.
  destruct (index rows i) as [row |] eqn:Hrow; simpl; [| discriminate].
  intros [= <-].
  destruct (Z.eq_dec (y p) i) as [-> | Hne].
  - rewrite Hrow, (index_replaceNth_same _ _ _ _ Hrow); simpl.
    apply JsArrayFacts.get_set_keep.
  - rewrite index_replaceNth_other; eauto using index_Some_nonneg.
Qed.

(** ** The block written into the copies of the grids *)

Lemma stamp_same (grids grids' : list (JsArray.t Z) * GameState) (p : Point) :
  stamp grids p = Some grids' -> stamped [p] grids'.
Proof.
  destruct grids as [g gg], p as [px py]. unfold stamp; simpl.
  destruct (setCell g py px 1) as [g1 |] eqn:H1; simpl; [| discriminate].
  destruct (setCell gg py px FILLED) as [gg1 |] eqn:H2; simpl; [| discriminate].
  intros [= <-] q [<- | []]; simpl.
  split; eapply setCell_same; eassumption.
Qed.

Lemma stamp_keep (grids grids' : list (JsArray.t Z) * GameState) (p : Point) (b : Block) :
  stamp grids p = Some grids' -> stamped b grids -> stamped b grids'.
Proof.
  destruct grids as [g gg]. unfold stamp.
  destruct (setCell g _ _ 1) as [g1 |] eqn:H1; simpl; [| discriminate].
  destruct (setCell gg _ _ FILLED) as [gg1 |] eqn:H2; simpl; [| discriminate].
  intros [= <-] Hb q Hq. destruct (Hb q Hq) as [Hg Hgg]; simpl in *.
  split; eapply setCell_keep; eassumption.
Qed.

Lemma forEach_stamp_keep (l b : Block) (grids grids' : list (JsArray.t Z) * GameState) :
  forEach stamp l grids = Some grids' -> stamped b grids -> stamped b grids'.
Proof.
  revert grids; induction l as [| p l IH]; simpl; intros grids.
  - now intros [= <-].
  - destruct (stamp grids p) as [g1 |] eqn:Hp; simpl; [| discriminate].
    intros Hl Hb. eapply IH; eauto using stamp_keep.
Qed.

Lemma forEach_stamp_stamped (l : Block) (grids grids' : list (JsArray.t Z) * GameState) :
  forEach stamp l grids = Some grids' -> stamped l grids'.
Proof.
  revert grids; induction l as [| p l IH]; simpl; intros grids.
  - intros _ q [].
  - destruct (stamp grids p) as [g1 |] eqn:Hp; simpl; [| discriminate].
    intros Hl q [<- | Hq].
    + eapply forEach_stamp_keep; [eassumption | eapply stamp_same; eassumption |].
      now left.
    + eapply IH; eassumption.
Qed.

Lemma stampBlock_stamped (s : State) (grids : list (JsArray.t Z) * GameState) :
  stampBlock s = Some grids -> stamped (block s) grids.
Proof. apply forEach_stamp_stamped. Qed.

(** ** Counting the full rows *)

Lemma length_filter_split {A : Type} (f : A -> bool) (l : list A) :
  (List.length (filter f l) + List.length (filter (fun a => negb (f a)) l))%nat
  = List.length l.
Proof.
  induction l as [| a l IH]; simpl; [reflexivity |].
  destruct (f a); simpl; lia.
Qed.

Lemma cleared_count (grid : list (JsArray.t Z)) :
  Z.of_nat (List.length grid) - Z.of_nat (List.length (filter hasFreeCell grid))
  = fullRows grid.
Proof.
  unfold fullRows. pose proof (length_filter_split hasFreeCell grid). lia.
Qed.

Lemma fullRows_nonneg (grid : list (JsArray.t Z)) : 0 <= fullRows grid.
Proof. unfold fullRows. lia. Qed.

Lemma fullRows_le_length (grid : list (JsArray.t Z)) :
  fullRows grid <= Z.of_nat (List.length grid).
Proof. rewrite <- cleared_count. lia. Qed.

Lemma clearFullRows_clearedRows (grid : list (JsArray.t Z)) (gameGrid : GameState)
    (c : Cleared.t) :
  clearFullRows grid gameGrid = Some c -> Cleared.clearedRows c = fullRows grid.
Proof.
  unfold clearFullRows. rewrite cleared_count.
  destruct (arrayFrom _ _) as [rows |]; simpl; [| discriminate].
  destruct (arrayFrom _ _) as [gameRows |]; simpl; [| discriminate].
  now intros [= <-].
Qed.

Lemma lockstep_filter_length (grid : list (JsArray.t Z)) (gameGrid : GameState) :
  lockstep grid gameGrid ->
  List.length (filter hasUnfilledCell gameGrid) = List.length (filter hasFreeCell grid).
Proof.
  induction 1 as [| row gameRow grid gameGrid Hrow _ IH]; simpl; [reflexivity |].
  rewrite Hrow. destruct (hasUnfilledCell gameRow); simpl; congruence.
Qed.

Lemma arrayFrom_fill {A : Type} (rows : list (JsArray.t A)) (a : A) (n h w : Z) :
  0 <= n <= h -> rectangular h w rows ->
  arrayFrom n (row0 <- index rows 0 ;; Some (JsArray.fill (JsArray.length row0) a))
  = Some (repeat (JsArray.fill w a) (Z.to_nat n)).
Proof.
  intros Hn [Hlen Hw]. unfold arrayFrom.
  destruct (n <=? 0) eqn:H0.
  - apply Z.leb_le in H0. now replace n with 0 by lia.
  - apply Z.leb_gt in H0. destruct rows as [| row0 rows]; simpl in *; [lia |].
    now rewrite (Forall_inv Hw).
Qed.

Lemma Forall_filter {A : Type} (P : A -> Prop) (f : A -> bool) (l : list A) :
  Forall P l -> Forall P (filter f l).
Proof.
  induction 1 as [| a l Ha _ IH]; simpl; [constructor |].
  destruct (f a); auto.
Qed.

Lemma Forall_repeat {A : Type} (P : A -> Prop) (a : A) (n : nat) :
  P a -> Forall P (repeat a n).
Proof. intros Ha. induction n; simpl; auto. Qed.

Lemma length_fill {A : Type} (w : Z) (a : A) : 0 <= w -> JsArray.length (JsArray.fill w a) = w.
Proof.
  intros Hw. unfold JsArray.length, JsArray.fill; simpl. rewrite repeat_length. lia.
Qed.

Lemma rectangular_nonneg {A : Type} (h w : Z) (rows : list (JsArray.t A)) :
  rectangular h w rows -> 0 < h -> 0 <= w.
Proof.
  intros [Hlen Hw] Hh. destruct rows as [| row rows]; simpl in *; [lia |].
  apply Forall_inv in Hw. unfold JsArray.length in Hw. lia.
Qed.

(** [clearFullRows] on grids that agree on their full rows. *)
Lemma clearFullRows_lockstep (h w : Z) (grid : list (JsArray.t Z)) (gameGrid : GameState) :
  rectangular h w grid -> rectangular h w gameGrid -> lockstep grid gameGrid ->
  clears_full_rows h w grid gameGrid.
Proof.
  intros Hg Hgg Hlock.
  pose proof (fullRows_nonneg grid) as Hk0.
  pose proof (fullRows_le_length grid) as Hkh.
  pose proof (cleared_count grid) as Hcount.
  pose proof (lockstep_filter_length grid gameGrid Hlock) as Hsame.
  assert (Hk : 0 <= fullRows grid <= h) by (destruct Hg; lia).
  unfold clears_full_rows, clearFullRows. rewrite Hcount.
  rewrite (arrayFrom_fill grid 0 _ h w Hk Hg), (arrayFrom_fill gameGrid EMPTY _ h w Hk Hgg).
  cbn [bind]. eexists. split; [reflexivity |].
  cbn [Cleared.clearedRows Cleared.newGrid Cleared.newGameGrid].
  repeat (split; [reflexivity |]).
  assert (Hfresh : forall A (a : A), 0 < fullRows grid ->
            Forall (fun row => JsArray.length row = w)
                   (repeat (JsArray.fill w a) (Z.to_nat (fullRows grid)))).
  { intros A a Hpos. apply Forall_repeat, length_fill.
    apply (rectangular_nonneg h w grid Hg). lia. }
  assert (Hnone : forall A (a : A), fullRows grid = 0 ->
            repeat (JsArray.fill w a) (Z.to_nat (fullRows grid)) = []).
  { intros A a ->. reflexivity. }
  destruct Hg as [Hlen Hw], Hgg as [Hlen' Hw'].
  split; split.
  - rewrite length_app, repeat_length. lia.
  - apply Forall_app. split; [| now apply Forall_filter].
    destruct (Z.eq_dec (fullRows grid) 0) as [E | E];
      [rewrite Hnone by assumption; constructor | apply Hfresh; lia].
  - rewrite length_app, repeat_length, Hsame. lia.
  - apply Forall_app. split; [| now apply Forall_filter].
    destruct (Z.eq_dec (fullRows grid) 0) as [E | E];
      [rewrite Hnone by assumption; constructor | apply Hfresh; lia].
Qed.

(** ** The three branches of [tick] *)

Lemma tick_stopped (k1 k2 : TetrominoKey) (s : State) :
  gameEnd s || gamePaused s = true -> tick k1 k2 s = Some s.
Proof. intros H. unfold tick. now rewrite H. Qed.

Lemma unshift_shifted (d : Direction) (b : Block) :
  map (fun p => mkPoint (x p - xShiftOf d) (y p)) (shifted d b) = dropped b.
Proof.
  unfold shifted, dropped. rewrite map_map. apply map_ext.
  intros p; simpl. f_equal. lia.
Qed.

Lemma tick_falling (k1 k2 : TetrominoKey) (s : State) :
  gameEnd s = false -> gamePaused s = false -> blockSettled s = false ->
  tick k1 k2 s =
    Some (if willCollide (candidate s) (grid s)
          then withBlockSettled true s
          else withDirection NONE (withBlock (candidate s) s)).
Proof.
  intros He Hp Hs. unfold tick. rewrite He, Hp, Hs. cbv beta iota zeta.
  change (false || false) with false. cbv iota.
  change (map (fun p => mkPoint (x p + xShiftOf (direction s)) (y p + 1)) (block s))
    with (shifted (direction s) (block s)).
  rewrite unshift_shifted. unfold candidate.
  now destruct (willCollide _ (grid s)).
Qed.

Lemma tick_settled (k1 k2 : TetrominoKey) (s s' : State) :
  gameEnd s = false -> gamePaused s = false -> blockSettled s = true ->
  tick k1 k2 s = Some s' ->
  exists updatedGrid updatedGameGrid,
    stampBlock s = Some (updatedGrid, updatedGameGrid) /\
    (((willCollide (newBlock k1) updatedGrid = true \/ topRowOccupied updatedGrid) /\
      s' = withGameEnd true s)
     \/
     (exists c, clearFullRows updatedGrid updatedGameGrid = Some c /\ s' = spawned k2 s c)).
Proof.
  intros He Hp Hs. unfold tick. rewrite Hs.
  replace (gameEnd s || gamePaused s) with false by now rewrite He, Hp.
  destruct (stampBlock s) as [[ug ugg] |]; cbn [bind]; [| discriminate].
  intros H. exists ug, ugg. split; [reflexivity |].
  destruct (willCollide (newBlock k1) ug) eqn:Hc.
  { left. injection H as <-. auto. }
  destruct (index ug 0) as [row0 |] eqn:H0; cbn [bind] in H; [| discriminate].
  destruct (JsArray.some (isNumber 1) row0) eqn:Htop.
  { left. injection H as <-. split; [right; exists row0 |]; auto. }
  destruct (clearFullRows ug ugg) as [c |] eqn:Hclr; cbn [bind] in H; [| discriminate].
  right. exists c. injection H as <-. auto.
Qed.

(** The settled branch, once the block has been written into the copies. *)
Lemma tick_settled_exact (k1 k2 : TetrominoKey) (s : State)
    (updatedGrid : list (JsArray.t Z)) (updatedGameGrid : GameState) :
  gameEnd s = false -> gamePaused s = false -> blockSettled s = true ->
  stampBlock s = Some (updatedGrid, updatedGameGrid) ->
  tick k1 k2 s =
    if willCollide (newBlock k1) updatedGrid then Some (withGameEnd true s)
    else
      row0 <- index updatedGrid 0 ;;
      if JsArray.some (isNumber 1) row0 then Some (withGameEnd true s)
      else c <- clearFullRows updatedGrid updatedGameGrid ;; Some (spawned k2 s c).
Proof.
  intros He Hp Hs Hst. unfold tick. rewrite Hs, Hst.
  replace (gameEnd s || gamePaused s) with false by now rewrite He, Hp.
  reflexivity.
Qed.

(** A settled tick that returns has ended the game exactly when one of the
    two end conditions holds of the grid with the block written into it. *)
Lemma tick_settled_end_iff (k1 k2 : TetrominoKey) (s s' : State)
    (updatedGrid : list (JsArray.t Z)) (updatedGameGrid : GameState) :
  gameEnd s = false -> gamePaused s = false -> blockSettled s = true ->
  stampBlock s = Some (updatedGrid, updatedGameGrid) ->
  tick k1 k2 s = Some s' ->
  (gameEnd s' = true <->
   willCollide (newBlock k1) updatedGrid = true \/ topRowOccupied updatedGrid).
Proof.
  intros He Hp Hs Hst.
  rewrite (tick_settled_exact k1 k2 s _ _ He Hp Hs Hst).
  destruct (willCollide (newBlock k1) updatedGrid) eqn:Hc.
  { intros [= <-]. split; auto. }
  destruct (index updatedGrid 0) as [row0 |] eqn:H0; cbn [bind]; [| discriminate].
  destruct (JsArray.some (isNumber 1) row0) eqn:Htop.
  { intros [= <-]. split; [| reflexivity]. intros _. right. exists row0. auto. }
  destruct (clearFullRows updatedGrid updatedGameGrid) as [c |]; cbn [bind]; [| discriminate].
  intros [= <-]. cbn [gameEnd spawned]. rewrite He. split; [discriminate |].
  intros [Hcol | (row0' & H0' & Htop')]; [discriminate |]. congruence.
Qed.

Lemma tick_settled_ends (k1 k2 : TetrominoKey) (s : State)
    (updatedGrid : list (JsArray.t Z)) (updatedGameGrid : GameState) :
  gameEnd s = false -> gamePaused s = false -> blockSettled s = true ->
  stampBlock s = Some (updatedGrid, updatedGameGrid) ->
  willCollide (newBlock k1) updatedGrid = true \/ topRowOccupied updatedGrid ->
  tick k1 k2 s = Some (withGameEnd true s).
Proof.
  intros He Hp Hs Hst Hend.
  rewrite (tick_settled_exact k1 k2 s _ _ He Hp Hs Hst).
  destruct (willCollide (newBlock k1) updatedGrid) eqn:Hc; [reflexivity |].
  destruct Hend as [Hcol | (row0 & H0 & Htop)]; [discriminate |].
  rewrite H0. cbn [bind]. now rewrite Htop.
Qed.

(** The case analysis that the lemmas above allow on any tick. *)
Lemma tick_cases (k1 k2 : TetrominoKey) (s s' : State) :
  tick k1 k2 s = Some s' ->
  s' = s \/
  s' = withGameEnd true s \/
  s' = withBlockSettled true s \/
  (s' = withDirection NONE (withBlock (candidate s) s) /\
   blockSettled s = false) \/
  (exists updatedGrid updatedGameGrid c,
     stampBlock s = Some (updatedGrid, updatedGameGrid) /\
     clearFullRows updatedGrid updatedGameGrid = Some c /\ s' = spawned k2 s c).
Proof.
  intros Ht.
  destruct (gameEnd s || gamePaused s) eqn:Hstop.
  { rewrite tick_stopped in Ht by assumption. injection Ht as <-. auto. }
  apply orb_false_iff in Hstop as [He Hp].
  destruct (blockSettled s) eqn:Hs.
  - destruct (tick_settled k1 k2 s s' He Hp Hs Ht)
      as (ug & ugg & Hst & [[_ ->] | (c & Hc & ->)]); [auto |].
    do 4 right. exists ug, ugg, c. auto.
  - rewrite tick_falling in Ht by assumption. injection Ht as <-.
    destruct (willCollide _ _); auto 8.
Qed.

Lemma tick_preserves (k1 k2 : TetrominoKey) (s s' : State) :
  tick k1 k2 s = Some s' ->
  currentBlockType s' = currentBlockType s /\
  highscore s' = highscore s /\
  clearedRows s' = clearedRows s.
Proof.
  intros Ht.
  destruct (tick_cases k1 k2 s s' Ht)
    as [-> | [-> | [-> | [[-> _] | (ug & ugg & c & _ & _ & ->)]]]]; auto.
Qed.

(** ** Runs of the reducer *)

Lemma run_reachable (k0 : TetrominoKey) (events : list Event) (w w' : World) :
  reachable k0 w -> run k0 events w = Some w' -> reachable k0 w'.
Proof.
  revert w; induction events as [| event events IH]; simpl; intros w Hw.
  - now intros [= <-].
  - destruct (reduce k0 w event) as [w1 |] eqn:H1; simpl; [| discriminate].
    apply IH. eapply reachable_step; eassumption.
Qed.

(** The states defined above occur in play. *)

Lemma stackedSquares_run :
  run O_ (KEY NONE :: repeat (TICK O_ O_) 109) (initialWorld O_)
  = Some (mkWorld stackedSquares (inject_Z Constants.TICK_RATE_MS)).
Proof. vm_compute. reflexivity. Qed.

Lemma rowCompleting_run :
  run I_ (dropSquareRight ++ dropBarLeft ++ dropBarMiddle) (initialWorld I_)
  = Some (mkWorld rowCompleting (inject_Z Constants.TICK_RATE_MS)).
Proof. vm_compute. reflexivity. Qed.

Lemma rowCleared_step :
  reduce I_ (mkWorld rowCompleting (inject_Z Constants.TICK_RATE_MS)) (TICK O_ I_)
  = Some (mkWorld rowCleared (inject_Z Constants.TICK_RATE_MS)).
Proof. vm_compute. reflexivity. Qed.

Lemma barAtLeftWall_run :
  run I_ (dropSquareRight ++ walkBarLeft) (initialWorld I_)
  = Some (mkWorld barAtLeftWall (inject_Z Constants.TICK_RATE_MS)).
Proof. vm_compute. reflexivity. Qed.

(** ** Fields that no transition writes *)

Lemma reduce_invariant (k0 : TetrominoKey) (w w' : World) (event : Event) :
  invariant w -> reduce k0 w event = Some w' -> invariant w'.
Proof.
  intros [Hty Hhi Hcl Hrate].
  destruct event as [k1 k2 | d | | |]; simpl.
  - destruct (tick k1 k2 (state w)) as [s' |] eqn:Ht; simpl; [| discriminate].
    apply tick_preserves in Ht as (Hty' & Hhi' & Hcl').
    intros [= <-]; split; simpl; try congruence.
    rewrite Hcl', Hcl, Hrate. reflexivity.
  - destruct d, (direction (state w)); intros [= <-]; split; assumption.
  - intros [= <-]; split; simpl; auto.
  - destruct (_ && _); intros [= <-]; split; assumption.
  - intros [= <-]; split; assumption.
Qed.

Lemma reachable_invariant (k0 : TetrominoKey) (w : World) :
  reachable k0 w -> invariant w.
Proof.
  induction 1 as [| w w' event _ IH Hstep].
  - split; reflexivity.
  - eapply reduce_invariant; eassumption.
Qed.

Lemma reduce_highscore (k0 : TetrominoKey) (w w' : World) (event : Event) :
  reduce k0 w event = Some w' -> highscore (state w') = highscore (state w).
Proof.
  destruct event as [k1 k2 | d | | |]; simpl.
  - destruct (tick k1 k2 (state w)) as [s' |] eqn:Ht; simpl; [| discriminate].
    intros [= <-]. now apply tick_preserves in Ht.
  - destruct d, (direction (state w)); intros [= <-]; reflexivity.
  - intros [= <-]. reflexivity.
  - destruct (_ && _); intros [= <-]; reflexivity.
  - intros [= <-]. reflexivity.
Qed.

(** The counter of cleared rows stays at [0] and the interval at the base
    rate throughout every game. *)
Lemma clearedRows_never_counted (k0 : TetrominoKey) (w : World) :
  reachable k0 w ->
  clearedRows (state w) = 0 /\ tickRate w = inject_Z Constants.TICK_RATE_MS.
Proof.
  intros H. apply reachable_invariant in H as [_ _ Hcl Hrate]. auto.
Qed.

(** When the rotated block is rejected, [ROTATE] does what [PAUSE] does. *)
Lemma rotate_rejected_is_pause (k0 : TetrominoKey) (w : World) :
  let rotated := rotateBlock (block (state w)) (currentBlockType (state w)) in
  isOutOfBound rotated = true \/ willCollide rotated (grid (state w)) = true ->
  reduce k0 w ROTATE = reduce k0 w PAUSE.
Proof.
  intros rotated H. unfold reduce. fold rotated.
  replace (negb (isOutOfBound rotated) && negb (willCollide rotated (grid (state w))))
    with false; [reflexivity |].
  symmetry. destruct H as [-> | ->]; [reflexivity | apply andb_false_r].
Qed.

(** ** The two grids of a game stay in step *)

Lemma Forall2_replaceNth {A B : Type} (P : A -> B -> Prop) (n : nat) (a : A) (b : B)
    (l : list A) (l' : list B) :
  Forall2 P l l' -> P a b -> Forall2 P (replaceNth n a l) (replaceNth n b l').
Proof.
  intros H Hab. revert n.
  induction H as [| a0 b0 l l' H0 Hl IH]; intros [| n]; simpl; constructor; auto.
Qed.

Lemma Forall2_index {A B : Type} (P : A -> B -> Prop) (l : list A) (l' : list B)
    (i : Z) (a : A) (b : B) :
  Forall2 P l l' -> index l i = Some a -> index l' i = Some b -> P a b.
Proof.
  unfold index. destruct (0 <=? i); [| discriminate].
  generalize (Z.to_nat i) as n. intros n H. revert n.
  induction H as [| a0 b0 l l' H0 _ IH]; intros [| n]; simpl; try discriminate.
  - now intros [= <-] [= <-].
  - apply IH.
Qed.

Lemma Forall2_repeat {A B : Type} (P : A -> B -> Prop) (a : A) (b : B) (n : nat) :
  P a b -> Forall2 P (repeat a n) (repeat b n).
Proof. intros H. induction n; simpl; constructor; auto. Qed.

Lemma cellSynced_spread (l : list (JsArray.slot Z)) (l' : list (JsArray.slot Cell)) :
  Forall2 cellSynced l l' ->
  map (fun s => match s with JsArray.Hole => JsArray.Undefined | _ => s end) l = l /\
  map (fun s => match s with JsArray.Hole => JsArray.Undefined | _ => s end) l' = l'.
Proof.
  induction 1 as [| c g l l' [[-> ->] | [-> ->]] _ [IH IH']]; simpl;
    [auto | split; congruence ..].
Qed.

Lemma rowSynced_spread (row : JsArray.t Z) (gameRow : JsArray.t Cell) :
  rowSynced row gameRow -> rowSynced (JsArray.spread row) (JsArray.spread gameRow).
Proof.
  intros [Hlen Hcells]. destruct (cellSynced_spread _ _ Hcells) as [E E'].
  unfold rowSynced, JsArray.spread, JsArray.length in *; simpl.
  rewrite E, E'. auto.
Qed.

Lemma rowSynced_length (row : JsArray.t Z) (gameRow : JsArray.t Cell) :
  rowSynced row gameRow ->
  JsArray.length row = Constants.GRID_WIDTH /\ JsArray.length gameRow = Constants.GRID_WIDTH.
Proof.
  intros [Hlen Hcells]. split; [assumption |].
  unfold JsArray.length in *. now rewrite <- (Forall2_length Hcells).
Qed.

Lemma rowSynced_set (row : JsArray.t Z) (gameRow : JsArray.t Cell) (j : Z) :
  rowSynced row gameRow -> 0 <= j < Constants.GRID_WIDTH ->
  rowSynced (JsArray.set row j 1) (JsArray.set gameRow j FILLED).
Proof.
  intros Hrow Hj. destruct (rowSynced_length _ _ Hrow) as [Hlen Hlen'].
  destruct Hrow as [_ Hcells]. unfold Constants.GRID_WIDTH in *.
  assert (Hidx : JsArray.is_index j = true).
  { unfold JsArray.is_index. apply andb_true_iff.
    split; [apply Z.leb_le | apply Z.ltb_lt]; lia. }
  unfold JsArray.set. rewrite Hidx, Hlen, Hlen'.
  replace (j <? 10) with true by (symmetry; apply Z.ltb_lt; lia).
  split.
  - unfold JsArray.length in *; simpl. rewrite length_replaceNth. assumption.
  - simpl. apply Forall2_replaceNth; [assumption |]. right. auto.
Qed.

Lemma rowSynced_lockstep (row : JsArray.t Z) (gameRow : JsArray.t Cell) :
  rowSynced row gameRow -> hasFreeCell row = hasUnfilledCell gameRow.
Proof.
  intros [_ Hcells]. unfold hasFreeCell, hasUnfilledCell, JsArray.some.
  induction Hcells as [| c g l l' [[-> ->] | [-> ->]] _ IH]; simpl;
    [reflexivity | reflexivity | exact IH].
Qed.

Lemma synced_lockstep (grid : list (JsArray.t Z)) (gameGrid : GameState) :
  synced grid gameGrid -> lockstep grid gameGrid.
Proof.
  induction 1; constructor; auto using rowSynced_lockstep.
Qed.

Lemma synced_rectangular (grid : list (JsArray.t Z)) (gameGrid : GameState) :
  synced grid gameGrid ->
  rectangular (Z.of_nat (List.length grid)) Constants.GRID_WIDTH grid /\
  rectangular (Z.of_nat (List.length grid)) Constants.GRID_WIDTH gameGrid.
Proof.
  intros H. unfold rectangular. rewrite <- (Forall2_length H).
  repeat split; induction H as [| row gameRow grid gameGrid Hrow _ IH]; constructor;
    try assumption; now apply rowSynced_length in Hrow.
Qed.

Lemma setCell_synced (grid grid' : list (JsArray.t Z)) (gameGrid gameGrid' : GameState)
    (i j : Z) :
  synced grid gameGrid -> 0 <= j < Constants.GRID_WIDTH ->
  setCell grid i j 1 = Some grid' -> setCell gameGrid i j FILLED = Some gameGrid' ->
  synced grid' gameGrid'.
Proof.
  intros H Hj. unfold setCell.
  destruct (index grid i) as [row |] eqn:Hrow; simpl; [| discriminate].
  destruct (index gameGrid i) as [gameRow |] eqn:Hrow'; simpl; [| discriminate].
  intros [= <-] [= <-]. apply Forall2_replaceNth; [assumption |].
  apply rowSynced_set; [| assumption].
  eapply Forall2_index; eassumption.
Qed.

Lemma forEach_stamp_synced (l : Block) (grids grids' : list (JsArray.t Z) * GameState) :
  inColumns l -> synced (fst grids) (snd grids) ->
  forEach stamp l grids = Some grids' -> synced (fst grids') (snd grids').
Proof.
  intros Hl. revert grids.
  induction Hl as [| p l Hp _ IH]; simpl; intros [g gg] H.
  - now intros [= <-].
  - unfold stamp at 1.
    destruct (setCell g _ _ 1) as [g1 |] eqn:H1; simpl; [| discriminate].
    destruct (setCell gg _ _ FILLED) as [gg1 |] eqn:H2; simpl; [| discriminate].
    apply IH. simpl in *. eapply setCell_synced; eassumption.
Qed.

Lemma stampBlock_synced (s : State) (grids : list (JsArray.t Z) * GameState) :
  inColumns (block s) -> synced (grid s) (gameGrid s) ->
  stampBlock s = Some grids -> synced (fst grids) (snd grids).
Proof.
  intros Hb Hs. apply forEach_stamp_synced; [assumption |]. simpl.
  induction Hs; simpl; constructor; auto using rowSynced_spread.
Qed.

Lemma freshRows_synced (n : nat) :
  synced (repeat (JsArray.fill Constants.GRID_WIDTH 0) n)
         (repeat (JsArray.fill Constants.GRID_WIDTH EMPTY) n).
Proof.
  apply Forall2_repeat. split; [reflexivity |].
  simpl. repeat constructor; left; auto.
Qed.

Lemma filter_synced (grid : list (JsArray.t Z)) (gameGrid : GameState) :
  synced grid gameGrid ->
  synced (filter hasFreeCell grid) (filter hasUnfilledCell gameGrid).
Proof.
  induction 1 as [| row gameRow grid gameGrid Hrow _ IH]; simpl; [constructor |].
  rewrite (rowSynced_lockstep _ _ Hrow).
  destruct (hasUnfilledCell gameRow); [constructor |]; assumption.
Qed.

Lemma clearFullRows_synced (grid : list (JsArray.t Z)) (gameGrid : GameState)
    (c : Cleared.t) :
  synced grid gameGrid -> clearFullRows grid gameGrid = Some c ->
  synced (Cleared.newGrid c) (Cleared.newGameGrid c).
Proof.
  intros H Hc. destruct (synced_rectangular _ _ H) as [Hg Hgg].
  destruct (clearFullRows_lockstep _ _ _ _ Hg Hgg (synced_lockstep _ _ H))
    as (c' & Hc' & _ & E & E' & _).
  rewrite Hc in Hc'. injection Hc' as <-. unfold synced. rewrite E, E'.
  apply Forall2_app; [apply freshRows_synced | now apply filter_synced].
Qed.

Lemma isOutOfBound_false (b : Block) : isOutOfBound b = false -> inColumns b.
Proof.
  unfold isOutOfBound, inColumns. induction b as [| p b IH]; simpl; [constructor |].
  intros H. apply orb_false_iff in H as [Hp Hb].
  apply orb_false_iff in Hp as [Hlo Hhi].
  apply Z.ltb_ge in Hlo. rewrite Z.geb_leb in Hhi. apply Z.leb_gt in Hhi.
  constructor; [lia | auto].
Qed.

Lemma candidate_inColumns (s : State) : inColumns (block s) -> inColumns (candidate s).
Proof.
  intros Hb. unfold candidate.
  destruct (isOutOfBound _) eqn:Hout; [| now apply isOutOfBound_false].
  unfold dropped, inColumns in *. apply Forall_map.
  eapply Forall_impl; [| exact Hb]. auto.
Qed.

Lemma newBlock_inColumns (k : TetrominoKey) : inColumns (newBlock k).
Proof.
  destruct k; repeat constructor; simpl; unfold Constants.GRID_WIDTH; lia.
Qed.

Lemma initialState_wellFormed (k0 : TetrominoKey) : wellFormed (initialState k0).
Proof.
  split.
  - repeat constructor; simpl; unfold Constants.GRID_WIDTH; lia.
  - apply newBlock_inColumns.
  - apply (freshRows_synced (Z.to_nat Constants.GRID_HEIGHT)).
Qed.

Lemma tick_wellFormed (k1 k2 : TetrominoKey) (s s' : State) :
  wellFormed s -> tick k1 k2 s = Some s' -> wellFormed s'.
Proof.
  intros [Hb Hn Hg] Ht.
  destruct (tick_cases k1 k2 s s' Ht)
    as [-> | [-> | [-> | [[-> _] | (ug & ugg & c & Hst & Hc & ->)]]]];
    try (split; assumption).
  - split; simpl; auto using candidate_inColumns.
  - split; simpl; auto using newBlock_inColumns.
    eapply clearFullRows_synced; [| eassumption].
    apply (stampBlock_synced s (ug, ugg)); assumption.
Qed.

Lemma reduce_wellFormed (k0 : TetrominoKey) (w w' : World) (event : Event) :
  wellFormed (state w) -> reduce k0 w event = Some w' -> wellFormed (state w').
Proof.
  intros Hw. destruct event as [k1 k2 | d | | |]; simpl.
  - destruct (tick k1 k2 (state w)) as [s' |] eqn:Ht; simpl; [| discriminate].
    intros [= <-]. eapply tick_wellFormed; eassumption.
  - destruct Hw. destruct d, (direction (state w)); intros [= <-]; split; assumption.
  - intros [= <-]. destruct (initialState_wellFormed k0). split; assumption.
  - destruct Hw.
    destruct (isOutOfBound _) eqn:Hout; simpl; [intros [= <-]; split; assumption |].
    destruct (willCollide _ _); intros [= <-]; split; simpl;
      auto using isOutOfBound_false.
  - destruct Hw. intros [= <-]; split; assumption.
Qed.

Lemma reachable_wellFormed (k0 : TetrominoKey) (w : World) :
  reachable k0 w -> wellFormed (state w).
Proof.
  induction 1 as [| w w' event _ IH Hstep].
  - apply initialState_wellFormed.
  - eapply reduce_wellFormed; eassumption.
Qed.

(** In a game, [clearFullRows] is only called on grids of the same dimensions
    that agree on their full rows. *)
Lemma reachable_clears_in_lockstep (k0 : TetrominoKey) (w : World)
    (updatedGrid : list (JsArray.t Z)) (updatedGameGrid : GameState) :
  reachable k0 w ->
  stampBlock (state w) = Some (updatedGrid, updatedGameGrid) ->
  lockstep updatedGrid updatedGameGrid /\
  rectangular (Z.of_nat (List.length updatedGrid)) Constants.GRID_WIDTH updatedGrid /\
  rectangular (Z.of_nat (List.length updatedGrid)) Constants.GRID_WIDTH updatedGameGrid.
Proof.
  intros Hw Hst. apply reachable_wellFormed in Hw as [Hb _ Hg].
  pose proof (stampBlock_synced _ _ Hb Hg Hst) as H.
  split; [now apply synced_lockstep | now apply synced_rectangular].
Qed.

(** * The claims of the specification *)

(** ** A rejected rotation *)

(** C1 fails on the code.  In [barAtLeftWall], a state of a game in play, the
    rotated bar leaves the grid; [ROTATE] then falls through to the branch of
    [PAUSE] and returns the state with [gamePaused] set, not the state
    itself. *)
Theorem rejected_rotation_pauses :
  let w := mkWorld barAtLeftWall (inject_Z Constants.TICK_RATE_MS) in
  reachable I_ w /\
  rotateBlock (block barAtLeftWall) (currentBlockType barAtLeftWall)
    = [ mkPoint (-1) 6; mkPoint 0 6; mkPoint 1 6; mkPoint 2 6 ] /\
  isOutOfBound (rotateBlock (block barAtLeftWall) (currentBlockType barAtLeftWall)) = true /\
  gamePaused barAtLeftWall = false /\
  reduce I_ w ROTATE
    = Some (mkWorld (withGamePaused true barAtLeftWall) (inject_Z Constants.TICK_RATE_MS)) /\
  reduce I_ w ROTATE <> Some w.
Proof.
  split; [eapply run_reachable; [apply reachable_init | apply barAtLeftWall_run] |].
  repeat (split; [reflexivity |]). discriminate.
Qed.

(** ** The counter of cleared rows and the tick interval *)

(** C2 fails on the code.  The tick that clears the completed bottom row of
    [rowCompleting], a state of a game in play, adds ten to the score and one
    to the level but leaves the counter of cleared rows at [0]: the interval
    recomputed from it is still the base rate, not the faster one. *)
Theorem tick_forgets_cleared_rows :
  exists updatedGrid updatedGameGrid s',
    reachable I_ (mkWorld rowCompleting (inject_Z Constants.TICK_RATE_MS)) /\
    stampBlock rowCompleting = Some (updatedGrid, updatedGameGrid) /\
    fullRows updatedGrid = 1 /\
    tick O_ I_ rowCompleting = Some s' /\
    score s' = score rowCompleting + 10 /\
    currentLevel s' = currentLevel rowCompleting + 1 /\
    clearedRows rowCompleting = 0 /\
    clearedRows s' = 0 /\
    reduce I_ (mkWorld rowCompleting (inject_Z Constants.TICK_RATE_MS)) (TICK O_ I_)
      = Some (mkWorld s' (inject_Z Constants.TICK_RATE_MS)) /\
    (getTickRate (clearedRows s') == inject_Z Constants.TICK_RATE_MS)%Q /\
    ~ (getTickRate (clearedRows s') == inject_Z Constants.TICK_RATE_MS * 0.1)%Q.
Proof.
  destruct (stampBlock rowCompleting) as [[ug ugg] |] eqn:Hst; [| discriminate Hst].
  destruct (tick O_ I_ rowCompleting) as [s' |] eqn:Ht; [| discriminate Ht].
  exists ug, ugg, s'.
  split; [eapply run_reachable; [apply reachable_init | apply rowCompleting_run] |].
  injection Hst as <- <-. injection Ht as <-.
  repeat (split; [reflexivity |]).
  intros H. vm_compute in H. discriminate H.
Qed.

(** ** The end of the game *)

(** C3, as stated, fails: the block is written into copies of the grids, and
    the state of a finished game keeps the grids it had. *)
Lemma game_over_shows_block_fails : ~ game_over_shows_block O_ O_ stackedSquares.
Proof.
  intros H.
  specialize (H eq_refl eq_refl eq_refl (withGameEnd true stackedSquares) eq_refl eq_refl).
  destruct (H (mkPoint 4 0)) as [H1 _]; [now left |].
  discriminate H1.
Qed.

(** C3, amended: in a settled state [tick] first writes every point of the
    block into copies of the two grids and then evaluates the two end
    conditions on the copy: whenever one of them holds [tick] returns the
    input with [gameEnd] set, and a state that [tick] returns is terminated
    exactly when one of them holds.  The terminated state is the input with
    [gameEnd] set, so its grids are those of the input and the settled block
    is found in its [block] field only. *)
Theorem tick_settled_game_over (k1 k2 : TetrominoKey) (s : State) :
  gameEnd s = false -> gamePaused s = false -> blockSettled s = true ->
  (forall updatedGrid updatedGameGrid,
     stampBlock s = Some (updatedGrid, updatedGameGrid) ->
     stamped (block s) (updatedGrid, updatedGameGrid) /\
     (willCollide (newBlock k1) updatedGrid = true \/ topRowOccupied updatedGrid ->
      tick k1 k2 s = Some (withGameEnd true s))) /\
  (forall s', tick k1 k2 s = Some s' ->
     exists updatedGrid updatedGameGrid,
       stampBlock s = Some (updatedGrid, updatedGameGrid) /\
       stamped (block s) (updatedGrid, updatedGameGrid) /\
       (gameEnd s' = true <->
        willCollide (newBlock k1) updatedGrid = true \/ topRowOccupied updatedGrid) /\
       (gameEnd s' = true ->
        s' = withGameEnd true s /\
        grid s' = grid s /\ gameGrid s' = gameGrid s /\ block s' = block s)).
Proof.
  intros He Hp Hs. split.
  - intros ug ugg Hst. split; [now apply stampBlock_stamped |].
    now apply (tick_settled_ends k1 k2 s ug ugg).
  - intros s' Ht.
    destruct (tick_settled k1 k2 s s' He Hp Hs Ht) as (ug & ugg & Hst & Hcases).
    exists ug, ugg. split; [assumption |].
    split; [now apply stampBlock_stamped |].
    split; [now apply (tick_settled_end_iff k1 k2 s s' ug ugg) |].
    intros He'. destruct Hcases as [[_ ->] | (c & _ & ->)]; [auto |].
    cbn [gameEnd spawned] in He'. congruence.
Qed.

Lemma tick_settled_game_over_witness :
  exists updatedGrid updatedGameGrid,
    stampBlock stackedSquares = Some (updatedGrid, updatedGameGrid) /\
    cellAt updatedGrid (mkPoint 4 0) = Some 1 /\
    cellAt (grid stackedSquares) (mkPoint 4 0) = Some 0 /\
    tick O_ O_ stackedSquares = Some (withGameEnd true stackedSquares).
Proof.
  destruct (tick_settled_game_over O_ O_ stackedSquares eq_refl eq_refl eq_refl) as [_ H].
  destruct (H (withGameEnd true stackedSquares) eq_refl) as (ug & ugg & Hst & Hin & _).
  exists ug, ugg. split; [exact Hst |]. split; [| split; reflexivity].
  apply (Hin (mkPoint 4 0)). now left.
Defined.

(** ** The result of [clearFullRows] *)

(** C4, as stated, fails: the number of fresh rows of both results is counted
    on the occupancy grid, so a cell-state grid whose rows are not full where
    those of the occupancy grid are comes back with more rows than it had. *)
Lemma clearFullRows_keeps_dimensions_fails :
  ~ clearFullRows_keeps_dimensions [ JsArray.of_list [1] ] [ JsArray.of_list [EMPTY] ].
Proof.
  intros H. destruct (H 1 1) as (c & Hc & _ & _ & _ & _ & [Hlen _]).
  - split; [reflexivity | repeat constructor].
  - split; [reflexivity | repeat constructor].
  - injection Hc as <-. discriminate Hlen.
Qed.

(** C4, amended: for grids of the same dimensions that agree on which rows
    are full, [clearFullRows] returns, with the number of full rows, the rows
    that are not full in their order below that many fresh empty rows, in
    grids of the dimensions of the input. *)
Theorem clearFullRows_in_lockstep (h w : Z) (grid : list (JsArray.t Z)) (gameGrid : GameState) :
  rectangular h w grid -> rectangular h w gameGrid -> lockstep grid gameGrid ->
  exists c,
    clearFullRows grid gameGrid = Some c /\
    Cleared.clearedRows c = fullRows grid /\
    Cleared.newGrid c
      = repeat (JsArray.fill w 0) (Z.to_nat (fullRows grid)) ++ filter hasFreeCell grid /\
    Cleared.newGameGrid c
      = repeat (JsArray.fill w EMPTY) (Z.to_nat (fullRows grid))
        ++ filter hasUnfilledCell gameGrid /\
    rectangular h w (Cleared.newGrid c) /\
    rectangular h w (Cleared.newGameGrid c).
Proof. exact (clearFullRows_lockstep h w grid gameGrid). Qed.

Lemma clearFullRows_in_lockstep_witness :
  exists c,
    clearFullRows (gridOf [ [1; 1]; [0; 1]; [1; 1] ]) (gameGridOf [ [1; 1]; [0; 1]; [1; 1] ])
      = Some c /\
    Cleared.clearedRows c = 2 /\
    Cleared.newGrid c = gridOf [ [0; 0]; [0; 0]; [0; 1] ] /\
    Cleared.newGameGrid c = gameGridOf [ [0; 0]; [0; 0]; [0; 1] ].
Proof.
  destruct (clearFullRows_in_lockstep 3 2
              (gridOf [ [1; 1]; [0; 1]; [1; 1] ]) (gameGridOf [ [1; 1]; [0; 1]; [1; 1] ]))
    as (c & Hc & Hn & Hg & Hgg & _).
  - split; [reflexivity | repeat constructor].
  - split; [reflexivity | repeat constructor].
  - repeat constructor.
  - exists c. repeat split; assumption.
Defined.

(** ** Score and level *)

(** C5: when the settled branch runs to its end, the score grows by ten
    times the number of full rows of the grid with the block written into it,
    and the level grows by one when that number is positive, whatever it is,
    and stays as it was otherwise. *)
Theorem tick_settled_score_level (k1 k2 : TetrominoKey) (s s' : State) :
  gameEnd s = false -> gamePaused s = false -> blockSettled s = true ->
  tick k1 k2 s = Some s' -> gameEnd s' = false ->
  exists updatedGrid updatedGameGrid c,
    stampBlock s = Some (updatedGrid, updatedGameGrid) /\
    clearFullRows updatedGrid updatedGameGrid = Some c /\
    Cleared.clearedRows c = fullRows updatedGrid /\
    score s' = score s + 10 * fullRows updatedGrid /\
    (1 <= fullRows updatedGrid -> currentLevel s' = currentLevel s + 1) /\
    (fullRows updatedGrid = 0 -> currentLevel s' = currentLevel s).
Proof.
  intros He Hp Hs Ht He'.
  destruct (tick_settled k1 k2 s s' He Hp Hs Ht) as (ug & ugg & Hst & [[_ ->] | (c & Hc & ->)]).
  { discriminate He'. }
  exists ug, ugg, c. do 2 (split; [assumption |]).
  apply clearFullRows_clearedRows in Hc. simpl. rewrite Hc.
  do 2 (split; [reflexivity |]). split; intros Hk.
  - replace (fullRows ug >? 0) with true; [reflexivity |].
    symmetry. apply Z.gtb_lt. lia.
  - now rewrite Hk.
Qed.

Lemma tick_settled_score_level_witness :
  score rowCleared = score rowCompleting + 10 * 1 /\
  currentLevel rowCleared = currentLevel rowCompleting + 1.
Proof.
  destruct (tick_settled_score_level O_ I_ rowCompleting rowCleared)
    as (ug & ugg & c & Hst & _ & _ & Hscore & Hup & _); try reflexivity.
  assert (Hk : fullRows ug = 1) by (injection Hst as <- _; reflexivity).
  rewrite Hk in *. split; [exact Hscore | apply Hup; lia].
Defined.

(** ** The tick of a falling block *)



(** ** The tick of a game that is over or paused *)

(** C7: on a state whose [gameEnd] or [gamePaused] flag is set, [tick]
    returns the state itself, every field as it was. *)
Theorem tick_ended_or_paused (k1 k2 : TetrominoKey) (s : State) :
  gameEnd s = true \/ gamePaused s = true -> tick k1 k2 s = Some s.
Proof.
  intros H. apply tick_stopped. now apply orb_true_iff.
Qed.

Lemma tick_ended_or_paused_witness :
  tick O_ T_ (withGamePaused true stackedSquares) = Some (withGamePaused true stackedSquares).
Proof.
  apply (tick_ended_or_paused O_ T_ (withGamePaused true stackedSquares)).
  right; reflexivity.
Defined.

(** ** The type tag of the falling block *)

(** C8: in every world of a game [currentBlockType] is ['I'], so that
    [rotateBlock] takes its second branch and maps every point of the block,
    of a square too, through the rotation about the centre. *)
Theorem currentBlockType_always_I (k0 : TetrominoKey) (w : World) :
  reachable k0 w ->
  currentBlockType (state w) = "I"%string /\
  rotateBlock (block (state w)) (currentBlockType (state w))
    = map (fun p => rotatePoint p (getBlockCenter (block (state w)))) (block (state w)).
Proof.
  intros H. apply reachable_invariant in H as [Hty _ _ _].
  split; [assumption |]. rewrite Hty. reflexivity.
Qed.

Lemma currentBlockType_always_I_witness :
  currentBlockType stackedSquares = "I"%string /\
  rotateBlock (block stackedSquares) (currentBlockType stackedSquares)
    = [ mkPoint 4 1; mkPoint 4 0; mkPoint 5 1; mkPoint 5 0 ].
Proof.
  destruct (currentBlockType_always_I O_
              (mkWorld stackedSquares (inject_Z Constants.TICK_RATE_MS))) as [Hty Hrot].
  - exact (run_reachable O_ _ _ _ (reachable_init O_) stackedSquares_run).
  - split; [exact Hty | exact Hrot].
Defined.

(** ** The high score *)

(** C9: in every world of a game [highscore] is [0]; every event, [RESTART]
    included, hands the value on as it is. *)
Theorem highscore_always_zero (k0 : TetrominoKey) (w : World) :
  reachable k0 w ->
  highscore (state w) = 0 /\
  forall event w', reduce k0 w event = Some w' -> highscore (state w') = highscore (state w).
Proof.
  intros H. apply reachable_invariant in H as [_ Hhi _ _].
  split; [assumption |]. intros event w'. apply reduce_highscore.
Qed.

Lemma highscore_always_zero_witness :
  score rowCleared = 10 /\
  highscore rowCleared = 0 /\
  forall event w',
    reduce I_ (mkWorld rowCleared (inject_Z Constants.TICK_RATE_MS)) event = Some w' ->
    highscore (state w') = 0.
Proof.
  split; [reflexivity |].
  exact (highscore_always_zero I_ (mkWorld rowCleared (inject_Z Constants.TICK_RATE_MS))
           (reachable_step I_ _ _ _
              (run_reachable I_ _ _ _ (reachable_init I_) rowCompleting_run)
              rowCleared_step)).
Defined.

(** ** A pending [DOWN] *)

(** C10, as stated, fails when the block comes to rest: the state that
    becomes settled keeps its pending direction. *)
Lemma down_as_none_fails : ~ down_as_none I_ I_ restingSquare.
Proof.
  intros H. specialize (H eq_refl eq_refl eq_refl). discriminate H.
Qed.

(** C10, amended: with [DOWN] pending [tick] yields the state it yields with
    no direction pending, except that a block that comes to rest leaves
    [DOWN] pending where the other state has [NONE]. *)
Theorem tick_down_as_none (k1 k2 : TetrominoKey) (s : State) :
  gameEnd s = false -> gamePaused s = false -> blockSettled s = false ->
  (willCollide (dropped (block s)) (grid s) = false ->
     tick k1 k2 (withDirection DOWN s) = tick k1 k2 (withDirection NONE s)) /\
  (willCollide (dropped (block s)) (grid s) = true ->
     tick k1 k2 (withDirection DOWN s) = Some (withBlockSettled true (withDirection DOWN s)) /\
     tick k1 k2 (withDirection NONE s) = Some (withBlockSettled true (withDirection NONE s))).
Proof.
  intros He Hp Hs.
  assert (Hc : forall d, xShiftOf d = 0 -> candidate (withDirection d s) = dropped (block s)).
  { intros d Hd. unfold candidate, shifted; simpl. rewrite Hd.
    assert (E : map (fun p => mkPoint (x p + 0) (y p + 1)) (block s) = dropped (block s)).
    { apply map_ext. intros p. now rewrite Z.add_0_r. }
    rewrite E. now destruct (isOutOfBound (dropped (block s))). }
  rewrite (tick_falling k1 k2 (withDirection DOWN s) He Hp Hs).
  rewrite (tick_falling k1 k2 (withDirection NONE s) He Hp Hs).
  rewrite !Hc by reflexivity. simpl.
  split; intros ->; [reflexivity | split; reflexivity].
Qed.

Lemma tick_down_as_none_witness :
  tick I_ I_ (withDirection DOWN (initialState I_)) =
  tick I_ I_ (withDirection NONE (initialState I_)).
Proof.
  apply (tick_down_as_none I_ I_ (initialState I_)); reflexivity.
Defined.

(** * Further properties of the code *)

(** ** Rotation and translation *)

Lemma Qfloor_shift (q : Q) (z : Z) : Qfloor (q + inject_Z z) = Qfloor q + z.
Proof.
  destruct q as [a b]. unfold Qfloor, Qplus, inject_Z; simpl.
  rewrite Pos.mul_1_r, Z.mul_1_r. apply Z.div_add. discriminate.
Qed.

Lemma Math_round_shift (q r : Q) (z : Z) :
  (r == q + inject_Z z)%Q -> Math_round r = Math_round q + z.
Proof.
  intros E. unfold Math_round. rewrite <- Qfloor_shift.
  apply Qfloor_comp. rewrite E. ring.
Qed.

Lemma fold_sum_shift (b : Block) (a : Point) (c e : Z) :
  fold_left (fun acc p => mkPoint (x acc + x p) (y acc + y p)) b
            (mkPoint (x a + c) (y a + e))
  = let s := fold_left (fun acc p => mkPoint (x acc + x p) (y acc + y p)) b a in
    mkPoint (x s + c) (y s + e).
Proof.
  revert a; induction b as [| p b IH]; intros a; simpl; [reflexivity |].
  replace (x a + c + x p) with (x (mkPoint (x a + x p) (y a + y p)) + c) by (simpl; lia).
  replace (y a + e + y p) with (y (mkPoint (x a + x p) (y a + y p)) + e) by (simpl; lia).
  apply IH.
Qed.

Lemma fold_sum_translate (b : Block) (a : Point) (dx dy : Z) :
  fold_left (fun acc p => mkPoint (x acc + x p) (y acc + y p)) (translate dx dy b) a
  = let s := fold_left (fun acc p => mkPoint (x acc + x p) (y acc + y p)) b a in
    mkPoint (x s + Z.of_nat (List.length b) * dx) (y s + Z.of_nat (List.length b) * dy).
Proof.
  revert a; induction b as [| p b IH]; intros a.
  - simpl. destruct a; simpl. f_equal; lia.
  - cbn [translate map fold_left List.length]. fold (translate dx dy b).
    rewrite IH. cbn [x y].
    replace (x a + (x p + dx)) with (x (mkPoint (x a + x p) (y a + y p)) + dx) by (simpl; lia).
    replace (y a + (y p + dy)) with (y (mkPoint (x a + x p) (y a + y p)) + dy) by (simpl; lia).
    rewrite fold_sum_shift. cbv zeta. cbn [x y]. f_equal; lia.
Qed.

Lemma getBlockCenter_translate (b : Block) (dx dy : Z) :
  b <> [] ->
  (cx (getBlockCenter (translate dx dy b)) == cx (getBlockCenter b) + inject_Z dx)%Q /\
  (cy (getBlockCenter (translate dx dy b)) == cy (getBlockCenter b) + inject_Z dy)%Q.
Proof.
  intros Hb. unfold getBlockCenter. rewrite fold_sum_translate. cbv zeta. cbn [cx cy x y].
  assert (Hlen : List.length (translate dx dy b) = List.length b) by apply length_map.
  rewrite Hlen.
  assert (Hn : ~ (inject_Z (Z.of_nat (List.length b)) == 0)%Q).
  { destruct b; [congruence |]. unfold Qeq; simpl. lia. }
  split; rewrite inject_Z_plus, inject_Z_mult; field; exact Hn.
Qed.

Lemma rotateBlock_translate (b : Block) (dx dy : Z) :
  b <> [] ->
  rotateBlock (translate dx dy b) "I" = translate dx dy (rotateBlock b "I").
Proof.
  intros Hb. destruct (getBlockCenter_translate b dx dy Hb) as [Ex Ey].
  unfold rotateBlock. cbn [String.eqb Ascii.eqb Bool.eqb].
  unfold translate at 2 3. rewrite !map_map. apply map_ext. intros p.
  unfold rotatePoint. cbn [x y]. f_equal; apply Math_round_shift.
  - rewrite Ex, Ey, inject_Z_plus. ring.
  - rewrite Ex, Ey, inject_Z_plus. ring.
Qed.

Lemma length_rotateBlock (b : Block) (type : string) :
  List.length (rotateBlock b type) = List.length b.
Proof.
  unfold rotateBlock. destruct (String.eqb type "O"); [reflexivity | apply length_map].
Qed.

Lemma length_rotations (n : nat) (b : Block) : List.length (rotations n b) = List.length b.
Proof.
  induction n as [| n IH]; simpl; [reflexivity |]. now rewrite length_rotateBlock.
Qed.

Lemma length_translate (dx dy : Z) (b : Block) :
  List.length (translate dx dy b) = List.length b.
Proof. apply length_map. Qed.

Lemma nonempty_length (b : Block) : (0 < List.length b)%nat -> b <> [].
Proof. destruct b; simpl; [lia | discriminate]. Qed.

Lemma rotations_translate (n : nat) (b : Block) (dx dy : Z) :
  b <> [] -> rotations n (translate dx dy b) = translate dx dy (rotations n b).
Proof.
  intros Hb. induction n as [| n IH]; simpl; [reflexivity |].
  rewrite IH. apply rotateBlock_translate.
  apply nonempty_length. rewrite length_rotations. destruct b; simpl; [congruence | lia].
Qed.

Lemma rotations_add (n m : nat) (b : Block) :
  rotations (n + m) b = rotations n (rotations m b).
Proof. induction n as [| n IH]; simpl; [reflexivity | now rewrite IH]. Qed.

Lemma translate_translate (a b c d : Z) (bl : Block) :
  translate a b (translate c d bl) = translate (c + a) (d + b) bl.
Proof.
  unfold translate. rewrite map_map. apply map_ext. intros p; simpl. f_equal; lia.
Qed.

Lemma translate_0 (bl : Block) : translate 0 0 bl = bl.
Proof.
  unfold translate. rewrite <- (map_id bl) at 2. apply map_ext.
  intros [px py]; simpl. f_equal; lia.
Qed.

Lemma TETROMINOS_nonempty (k : TetrominoKey) : TETROMINOS k <> [].
Proof. destruct k; discriminate. Qed.

Lemma rotations_four (k : TetrominoKey) :
  rotations 4 (TETROMINOS k) = translate (fst (drift k)) (snd (drift k)) (TETROMINOS k).
Proof. destruct k; vm_compute; reflexivity. Qed.

Lemma rotations_period (k : TetrominoKey) (n : nat) :
  rotations (n + 4) (TETROMINOS k)
  = translate (fst (drift k)) (snd (drift k)) (rotations n (TETROMINOS k)).
Proof.
  rewrite rotations_add, rotations_four.
  apply rotations_translate, TETROMINOS_nonempty.
Qed.

Lemma drift_down (k : TetrominoKey) : 0 <= snd (drift k).
Proof. destruct k; simpl; lia. Qed.

Lemma rotations_rows (k : TetrominoKey) (n : nat) :
  Forall (fun p => 0 <= y p) (rotations n (TETROMINOS k)).
Proof.
  induction n as [n IH] using lt_wf_ind.
  destruct (Nat.lt_ge_cases n 4) as [Hlt | Hge].
  - do 4 (destruct n as [| n]; [destruct k; repeat constructor; vm_compute; discriminate |]).
    lia.
  - replace n with ((n - 4) + 4)%nat by lia. rewrite rotations_period.
    unfold translate. apply Forall_map.
    eapply Forall_impl; [| apply (IH (n - 4)%nat); lia].
    intros p Hp. cbv beta in Hp. cbn [y]. pose proof (drift_down k). lia.
Qed.

Lemma newBlock_TETROMINOS (k : TetrominoKey) : newBlock k = TETROMINOS k.
Proof. destruct k; reflexivity. Qed.

(** ** Blocks of a game *)

Lemma spawnShape_newBlock (k : TetrominoKey) : spawnShape (newBlock k).
Proof.
  exists k, O, 0, 0. split; [lia |]. simpl. now rewrite translate_0, newBlock_TETROMINOS.
Qed.

Lemma spawnShape_length (b : Block) : spawnShape b -> List.length b = 4%nat.
Proof.
  intros (k & n & dx & dy & _ & ->).
  rewrite length_translate, length_rotations. now destruct k.
Qed.

Lemma spawnShape_rows (b : Block) : spawnShape b -> Forall (fun p => 0 <= y p) b.
Proof.
  intros (k & n & dx & dy & Hdy & ->). unfold translate. apply Forall_map.
  eapply Forall_impl; [| apply rotations_rows]. intros p Hp; cbv beta in Hp; simpl. lia.
Qed.

Lemma spawnShape_translate (b : Block) (dx dy : Z) :
  0 <= dy -> spawnShape b -> spawnShape (translate dx dy b).
Proof.
  intros Hdy (k & n & dx0 & dy0 & Hdy0 & ->).
  exists k, n, (dx0 + dx), (dy0 + dy). split; [lia | apply translate_translate].
Qed.

Lemma spawnShape_rotate (b : Block) : spawnShape b -> spawnShape (rotateBlock b "I").
Proof.
  intros (k & n & dx & dy & Hdy & ->).
  exists k, (S n), dx, dy. split; [assumption |]. simpl.
  apply rotateBlock_translate, nonempty_length.
  rewrite length_rotations. destruct k; simpl; lia.
Qed.

Lemma candidate_translate (s : State) :
  exists dx, candidate s = translate dx 1 (block s).
Proof.
  unfold candidate. destruct (isOutOfBound _).
  - exists 0. unfold dropped, translate. apply map_ext. intros p. f_equal. lia.
  - exists (xShiftOf (direction s)). reflexivity.
Qed.

(** ** Collisions *)

Lemma isNumber_true (n : Z) (cell : option Z) : isNumber n cell = true <-> cell = Some n.
Proof.
  destruct cell as [c |]; simpl; [| split; discriminate].
  rewrite Z.eqb_eq. split; congruence.
Qed.

Lemma willCollide_false_iff (b : Block) (g : list (JsArray.t Z)) :
  willCollide b g = false <->
  forall p, In p b -> y p < Constants.GRID_HEIGHT /\ cellAt g p <> Some 1.
Proof.
  unfold willCollide. induction b as [| q b IH]; simpl.
  - split; [intros _ p [] | reflexivity].
  - rewrite !orb_false_iff, IH. clear IH.
    assert (Hq : (y q >=? Constants.GRID_HEIGHT) = false /\
                 match index g (y q) with
                 | Some row => isNumber 1 (JsArray.get row (x q))
                 | None => false
                 end = false
                 <-> y q < Constants.GRID_HEIGHT /\ cellAt g q <> Some 1).
    { rewrite Z.geb_leb, Z.leb_gt. unfold cellAt.
      destruct (index g (y q)) as [row |]; simpl.
      - rewrite <- isNumber_true. destruct (isNumber 1 _); intuition congruence.
      - intuition congruence. }
    split.
    + intros [H1 H2] p [<- | Hp]; [now apply Hq | auto].
    + intros H. split; [apply Hq; auto | auto].
Qed.

Lemma willCollide_false_floor (b : Block) (g : list (JsArray.t Z)) :
  willCollide b g = false -> Forall (fun p => y p < Constants.GRID_HEIGHT) b.
Proof.
  intros H. apply Forall_forall. intros p Hp.
  now apply (proj1 (willCollide_false_iff b g) H p).
Qed.

(** ** Full rows while the block is written *)

Lemma hasFreeCell_spread (row : JsArray.t Z) :
  hasFreeCell (JsArray.spread row) = hasFreeCell row.
Proof.
  unfold hasFreeCell, JsArray.some, JsArray.spread; simpl.
  induction (JsArray.slots row) as [| [| | a] l IH]; simpl; congruence.
Qed.

Lemma fullRows_spread (g : list (JsArray.t Z)) :
  fullRows (map JsArray.spread g) = fullRows g.
Proof.
  unfold fullRows. f_equal. induction g as [| row g IH]; simpl; [reflexivity |].
  rewrite hasFreeCell_spread. destruct (hasFreeCell row); simpl; congruence.
Qed.

Lemma fullRows_replaceNth (n : nat) (row : JsArray.t Z) (g : list (JsArray.t Z)) :
  fullRows (replaceNth n row g) <= fullRows g + 1.
Proof.
  unfold fullRows. revert n; induction g as [| row0 g IH]; intros [| n]; simpl; try lia.
  - destruct (hasFreeCell row), (hasFreeCell row0); simpl; lia.
  - specialize (IH n). destruct (hasFreeCell row0); simpl; lia.
Qed.

Lemma setCell_fullRows (g g' : list (JsArray.t Z)) (i j v : Z) :
  setCell g i j v = Some g' -> fullRows g' <= fullRows g + 1.
Proof.
  unfold setCell. destruct (index g i); simpl; [| discriminate].
  intros [= <-]. apply fullRows_replaceNth.
Qed.

Lemma setCell_length {A : Type} (rows rows' : list (JsArray.t A)) (i j : Z) (v : A) :
  setCell rows i j v = Some rows' -> List.length rows' = List.length rows.
Proof.
  unfold setCell. destruct (index rows i); simpl; [| discriminate].
  intros [= <-]. apply length_replaceNth.
Qed.

Lemma index_Some_iff {A : Type} (l : list A) (i : Z) :
  0 <= i < Z.of_nat (List.length l) <-> exists a, index l i = Some a.
Proof.
  unfold index. destruct (0 <=? i) eqn:Hi.
  - apply Z.leb_le in Hi. split.
    + intros H. destruct (nth_error l (Z.to_nat i)) as [a |] eqn:E; [eauto |].
      apply nth_error_None in E. lia.
    + intros [a Ha]. assert (nth_error l (Z.to_nat i) <> None) by congruence.
      apply nth_error_Some in H. lia.
  - apply Z.leb_gt in Hi. split; [lia | intros [a Ha]; discriminate].
Qed.

Lemma forEach_stamp_bounds (l : Block) (grids grids' : list (JsArray.t Z) * GameState) :
  forEach stamp l grids = Some grids' ->
  List.length (fst grids') = List.length (fst grids) /\
  List.length (snd grids') = List.length (snd grids) /\
  fullRows (fst grids') <= fullRows (fst grids) + Z.of_nat (List.length l).
Proof.
  revert grids; induction l as [| p l IH]; intros [g gg]; cbn [forEach].
  - intros [= <-]. simpl. lia.
  - unfold stamp at 1.
    destruct (setCell g _ _ 1) as [g1 |] eqn:H1; cbn [bind]; [| discriminate].
    destruct (setCell gg _ _ FILLED) as [gg1 |] eqn:H2; cbn [bind]; [| discriminate].
    intros H. apply IH in H as (Hl & Hl' & Hf). cbn [fst snd] in *.
    apply setCell_length in H2. pose proof (setCell_fullRows _ _ _ _ _ H1).
    apply setCell_length in H1. cbn [List.length]. lia.
Qed.

Lemma setCell_total {A : Type} (rows : list (JsArray.t A)) (i j : Z) (v : A) :
  0 <= i < Z.of_nat (List.length rows) -> exists rows', setCell rows i j v = Some rows'.
Proof.
  intros Hi. apply index_Some_iff in Hi as [row Hrow].
  unfold setCell. rewrite Hrow. simpl. eauto.
Qed.

Lemma forEach_stamp_total (l : Block) (h : Z) :
  Forall (fun p => 0 <= y p < h) l ->
  forall (g : list (JsArray.t Z)) (gg : GameState),
  Z.of_nat (List.length g) = h -> Z.of_nat (List.length gg) = h ->
  exists grids', forEach stamp l (g, gg) = Some grids'.
Proof.
  induction 1 as [| p l Hp _ IH]; intros g gg Hg Hgg; cbn [forEach]; [eauto |].
  unfold stamp at 1.
  destruct (setCell_total g (y p) (x p) 1) as [g1 H1]; [lia |].
  destruct (setCell_total gg (y p) (x p) FILLED) as [gg1 H2]; [lia |].
  rewrite H1, H2. cbn [bind].
  apply setCell_length in H1, H2. apply IH; lia.
Qed.

Lemma forEach_stamp_throws (l : Block) (p : Point) (g : list (JsArray.t Z)) (gg : GameState) :
  In p l -> y p < 0 \/ Z.of_nat (List.length g) <= y p ->
  forEach stamp l (g, gg) = None.
Proof.
  intros Hp Hy. revert g gg Hy.
  induction l as [| q l IH]; intros g gg Hy; [destruct Hp |]. cbn [forEach].
  destruct (stamp (g, gg) q) as [[g1 gg1] |] eqn:Hq; cbn [bind]; [| reflexivity].
  unfold stamp in Hq.
  destruct (setCell g (y q) (x q) 1) as [g2 |] eqn:H1; cbn [bind] in Hq; [| discriminate].
  destruct (setCell gg (y q) (x q) FILLED) as [gg2 |]; cbn [bind] in Hq; [| discriminate].
  injection Hq as <- <-.
  destruct Hp as [-> | Hp].
  - exfalso. unfold setCell in H1.
    destruct (index g (y p)) as [row |] eqn:Hrow; [| discriminate].
    assert (0 <= y p < Z.of_nat (List.length g)) by (apply index_Some_iff; eauto). lia.
  - apply IH; [assumption |]. apply setCell_length in H1. lia.
Qed.

(** ** The grids after a settled tick *)

Lemma filter_filter_out {A : Type} (f : A -> bool) (l : list A) :
  filter (fun a => negb (f a)) (filter f l) = [].
Proof.
  induction l as [| a l IH]; simpl; [reflexivity |].
  destruct (f a) eqn:E; simpl; [| exact IH].
  rewrite E. exact IH.
Qed.

Lemma fullRows_cleared (g : list (JsArray.t Z)) (n : nat) :
  fullRows (repeat (JsArray.fill Constants.GRID_WIDTH 0) n ++ filter hasFreeCell g) = 0.
Proof.
  unfold fullRows. rewrite filter_app, filter_filter_out, app_nil_r.
  induction n as [| n IH]; [reflexivity | exact IH].
Qed.

Lemma clearFullRows_playable (g : list (JsArray.t Z)) (gg : GameState) :
  synced g gg ->
  exists c,
    clearFullRows g gg = Some c /\
    Cleared.clearedRows c = fullRows g /\
    synced (Cleared.newGrid c) (Cleared.newGameGrid c) /\
    List.length (Cleared.newGrid c) = List.length g /\
    fullRows (Cleared.newGrid c) = 0.
Proof.
  intros H. destruct (synced_rectangular _ _ H) as [Hg Hgg].
  destruct (clearFullRows_lockstep _ _ _ _ Hg Hgg (synced_lockstep _ _ H))
    as (c & Hc & Hn & E & E' & [Hlen _] & _).
  exists c. split; [assumption |]. split; [assumption |].
  split; [eapply clearFullRows_synced; eassumption |].
  split; [lia |]. rewrite E. apply fullRows_cleared.
Qed.

(** ** The invariant of a game *)

Lemma initialState_playable (k0 : TetrominoKey) : playable (initialState k0).
Proof.
  split.
  - reflexivity.
  - apply initialState_wellFormed.
  - reflexivity.
  - reflexivity.
  - repeat constructor; vm_compute; reflexivity.
  - exact (spawnShape_newBlock O_).
  - exists k0. reflexivity.
  - exists 0. simpl. lia.
Qed.

Lemma newBlock_floor (k : TetrominoKey) :
  Forall (fun p => y p < Constants.GRID_HEIGHT) (newBlock k).
Proof. destruct k; repeat constructor; vm_compute; reflexivity. Qed.

Lemma playable_rows (s : State) :
  playable s ->
  Forall (fun p => 0 <= y p < Constants.GRID_HEIGHT) (block s) /\
  Z.of_nat (List.length (map JsArray.spread (grid s))) = Constants.GRID_HEIGHT /\
  Z.of_nat (List.length (map JsArray.spread (gameGrid s))) = Constants.GRID_HEIGHT.
Proof.
  intros [_ [_ _ Hsync] Hrows _ Hfloor Hshape _ _].
  split.
  - apply spawnShape_rows in Hshape. apply Forall_forall.
    intros p Hp. rewrite Forall_forall in Hfloor, Hshape. split; auto.
  - rewrite !length_map. split; [assumption |].
    now rewrite <- (Forall2_length Hsync).
Qed.

Lemma tick_settled_playable (k1 k2 : TetrominoKey) (s : State) :
  playable s -> gameEnd s = false -> gamePaused s = false -> blockSettled s = true ->
  exists updatedGrid updatedGameGrid c,
    stampBlock s = Some (updatedGrid, updatedGameGrid) /\
    clearFullRows updatedGrid updatedGameGrid = Some c /\
    0 <= Cleared.clearedRows c <= 4 /\
    playable (spawned k2 s c) /\
    (tick k1 k2 s = Some (withGameEnd true s) \/ tick k1 k2 s = Some (spawned k2 s c)).
Proof.
  intros Hs He Hp Hset.
  destruct (playable_rows s Hs) as (Hrows & Hg & Hgg).
  destruct Hs as [Hty Hwf Hlen Hfull Hfloor Hshape [kn Hnext] (m & Hm & Hlevel)].
  destruct Hwf as [Hcols Hncols Hsync].
  destruct (forEach_stamp_total (block s) _ Hrows _ _ Hg Hgg) as [[ug ugg] Hst].
  change (stampBlock s = Some (ug, ugg)) in Hst.
  pose proof (stampBlock_synced s (ug, ugg) Hcols Hsync Hst) as Hsync'.
  destruct (forEach_stamp_bounds _ _ _ Hst) as (Hl & _ & Hf). cbn [fst snd] in *.
  rewrite fullRows_spread, Hfull, (spawnShape_length _ Hshape) in Hf.
  rewrite length_map in Hl.
  destruct (clearFullRows_playable ug ugg Hsync') as (c & Hc & Hn & Hsc & Hlc & Hfc).
  pose proof (fullRows_nonneg ug) as Hnn.
  exists ug, ugg, c. repeat (split; [assumption || lia |]).
  split.
  - split; cbn [currentBlockType grid block nextBlock score currentLevel gameGrid spawned].
    + assumption.
    + split; cbn [block nextBlock grid gameGrid spawned];
        [assumption | apply newBlock_inColumns | assumption].
    + lia.
    + assumption.
    + rewrite Hnext. apply newBlock_floor.
    + rewrite Hnext. apply spawnShape_newBlock.
    + eauto.
    + exists (m + Cleared.clearedRows c). split; [lia |].
      destruct (Cleared.clearedRows c >? 0) eqn:Hpos;
        [apply Z.gtb_lt in Hpos | rewrite Z.gtb_ltb in Hpos; apply Z.ltb_ge in Hpos]; lia.
  - unfold tick. rewrite Hset.
    replace (gameEnd s || gamePaused s) with false by now rewrite He, Hp.
    rewrite Hst. cbn [bind].
    destruct (willCollide (newBlock k1) ug); [now left |].
    assert (Hrow0 : exists row0, index ug 0 = Some row0).
    { apply index_Some_iff. unfold Constants.GRID_HEIGHT in *. lia. }
    destruct Hrow0 as [row0 ->]. cbn [bind].
    destruct (JsArray.some (isNumber 1) row0); [now left |].
    rewrite Hc. cbn [bind]. right. reflexivity.
Qed.

Lemma tick_playable (k1 k2 : TetrominoKey) (s : State) :
  playable s -> exists s', tick k1 k2 s = Some s' /\ playable s'.
Proof.
  intros Hs.
  destruct (gameEnd s || gamePaused s) eqn:Hstop.
  { exists s. split; [now apply tick_stopped | assumption]. }
  apply orb_false_iff in Hstop as [He Hp].
  destruct (blockSettled s) eqn:Hset.
  - destruct (tick_settled_playable k1 k2 s Hs He Hp Hset)
      as (ug & ugg & c & _ & _ & _ & Hpl & [Ht | Ht]); rewrite Ht.
    + exists (withGameEnd true s). split; [reflexivity |].
      destruct Hs as [? [] ? ? ? ? ? ?]. split; [| split | ..]; assumption.
    + eauto.
  - rewrite (tick_falling k1 k2 s He Hp Hset).
    destruct (willCollide (candidate s) (grid s)) eqn:Hc; eexists; (split; [reflexivity |]).
    + destruct Hs as [? [] ? ? ? ? ? ?]. split; [| split | ..]; assumption.
    + destruct Hs as [Hty [Hcols Hncols Hsync] Hlen Hfull Hfloor Hshape Hnext Hscore].
      split; cbn [currentBlockType grid block nextBlock score currentLevel gameGrid
                  withDirection withBlock]; try assumption.
      * split; cbn [block nextBlock grid gameGrid withDirection withBlock];
          [now apply candidate_inColumns | assumption | assumption].
      * eapply willCollide_false_floor; eassumption.
      * destruct (candidate_translate s) as [dx ->].
        apply spawnShape_translate; [lia | assumption].
Qed.

Lemma reduce_playable (k0 : TetrominoKey) (w : World) (event : Event) :
  playable (state w) -> exists w', reduce k0 w event = Some w' /\ playable (state w').
Proof.
  intros Hs. destruct event as [k1 k2 | d | | |]; cbn [reduce].
  - destruct (tick_playable k1 k2 (state w) Hs) as (s' & -> & Hs'). cbn [bind]. eauto.
  - assert (Hd : playable (withDirection d (state w))).
    { destruct Hs as [? [] ? ? ? ? ? ?]. split; [| split | ..]; assumption. }
    destruct d, (direction (state w)); eauto.
  - eexists. split; [reflexivity |]. cbn [state].
    destruct (initialState_playable k0) as [? [] ? ? ? ? ? ?].
    split; [| split | ..]; assumption.
  - destruct (negb _ && negb _) eqn:Hok; eexists; (split; [reflexivity |]); cbn [state].
    + apply andb_true_iff in Hok as [Hout Hcol].
      apply negb_true_iff in Hout, Hcol.
      destruct Hs as [Hty [Hcols Hncols Hsync] Hlen Hfull Hfloor Hshape Hnext Hscore].
      split; cbn [currentBlockType grid block nextBlock score currentLevel gameGrid
                  withBlock]; try assumption.
      * split; cbn [block nextBlock grid gameGrid withBlock];
          [now apply isOutOfBound_false | assumption | assumption].
      * eapply willCollide_false_floor; eassumption.
      * rewrite Hty. now apply spawnShape_rotate.
    + destruct Hs as [? [] ? ? ? ? ? ?]. split; [| split | ..]; assumption.
  - eexists. split; [reflexivity |]. cbn [state].
    destruct Hs as [? [] ? ? ? ? ? ?]. split; [| split | ..]; assumption.
Qed.

Lemma reachable_playable (k0 : TetrominoKey) (w : World) :
  reachable k0 w -> playable (state w).
Proof.
  induction 1 as [| w w' event _ IH Hstep].
  - apply initialState_playable.
  - destruct (reduce_playable k0 w event IH) as (w1 & Hw1 & Hpl). congruence.
Qed.

(** ** Runs, pauses and clearing *)

Lemma run_app (k0 : TetrominoKey) (events events' : list Event) (w : World) :
  run k0 (events ++ events') w = (w' <- run k0 events w ;; run k0 events' w').
Proof.
  revert w; induction events as [| event events IH]; intros w; simpl; [reflexivity |].
  destruct (reduce k0 w event); simpl; [apply IH | reflexivity].
Qed.



Lemma paused_ticks (k0 : TetrominoKey) (ticks : list Event) (w : World) :
  gamePaused (state w) = true -> forallb isTick ticks = true ->
  exists w', run k0 ticks w = Some w' /\ state w' = state w.
Proof.
  revert w; induction ticks as [| event ticks IH]; intros w Hp Hticks; [simpl; eauto |].
  cbn [forallb] in Hticks. apply andb_true_iff in Hticks as [Hev Hticks].
  destruct event as [k1 k2 | | | |]; try discriminate.
  cbn [run reduce]. rewrite tick_stopped by (rewrite Hp; apply orb_true_r). cbn [bind].
  destruct (IH (mkWorld (state w)
                  (if negb (Qeq_bool (getTickRate (clearedRows (state w))) (tickRate w))
                   then getTickRate (clearedRows (state w)) else tickRate w)))
    as (w' & Hrun & Hst); auto.
  exists w'. auto.
Qed.

Lemma unpause_pause (s : State) :
  gamePaused s = false -> withGamePaused (negb true) (withGamePaused (negb false) s) = s.
Proof. destruct s; simpl. now intros ->. Qed.

Lemma play_finished (k0 : TetrominoKey) (events events' : list Event) (w w1 : World) :
  gameEnd (state w) = false -> play k0 events w = Some w1 -> gameEnd (state w1) = true ->
  play k0 (events ++ events') w = Some w1.
Proof.
  revert w; induction events as [| event events IH]; intros w He Hplay He1.
  - injection Hplay as <-. congruence.
  - cbn [app play] in *.
    destruct (reduce k0 w event) as [w' |]; cbn [bind] in *; [| discriminate].
    destruct (gameEnd (state w')) eqn:He'; [assumption | now apply IH].
Qed.

Lemma play_game_over :
  play O_ (KEY NONE :: repeat (TICK O_ O_) 110) (initialWorld O_)
  = Some (mkWorld (withGameEnd true stackedSquares) (inject_Z Constants.TICK_RATE_MS)).
Proof. vm_compute. reflexivity. Qed.

Lemma filter_keeps_all {A : Type} (f : A -> bool) (l : list A) :
  List.length (filter (fun a => negb (f a)) l) = O -> filter f l = l.
Proof.
  induction l as [| a l IH]; simpl; [reflexivity |].
  destruct (f a); simpl; [intros H; f_equal; auto | discriminate].
Qed.

Lemma lockstep_filter (grid : list (JsArray.t Z)) (gameGrid : GameState) :
  lockstep grid gameGrid ->
  lockstep (filter hasFreeCell grid) (filter hasUnfilledCell gameGrid).
Proof.
  induction 1 as [| row gameRow grid gameGrid Hrow _ IH]; simpl; [constructor |].
  rewrite Hrow. destruct (hasUnfilledCell gameRow) eqn:E; [constructor |];
    congruence || exact IH.
Qed.

Lemma some_fill {A : Type} (f : option A -> bool) (w : Z) (a : A) :
  0 < w -> f (Some a) = true -> JsArray.some f (JsArray.fill w a) = true.
Proof.
  intros Hw Ha. unfold JsArray.some, JsArray.fill; simpl.
  destruct (Z.to_nat w) as [| n] eqn:E; [lia |]. simpl. now rewrite Ha.
Qed.

Lemma nothing_to_clear (grid : list (JsArray.t Z)) (gameGrid : GameState) :
  fullRows grid = 0 ->
  clearFullRows grid gameGrid
  = Some (Cleared.mk grid (filter hasUnfilledCell gameGrid) 0).
Proof.
  intros H. unfold clearFullRows. rewrite cleared_count, H. cbn [arrayFrom Z.leb bind].
  simpl. f_equal. f_equal. apply filter_keeps_all. unfold fullRows in H. lia.
Qed.

Lemma filter_repeat_in {A : Type} (f : A -> bool) (a : A) (n : nat) :
  f a = true -> filter f (repeat a n) = repeat a n.
Proof. intros H. induction n as [| n IH]; simpl; [| rewrite H, IH]; reflexivity. Qed.

Lemma filter_repeat_out {A : Type} (f : A -> bool) (a : A) (n : nat) :
  f a = true -> filter (fun a' => negb (f a')) (repeat a n) = [].
Proof. intros H. induction n as [| n IH]; simpl; [| rewrite H]; auto. Qed.

Lemma restingSquare_run :
  run I_ (repeat (TICK O_ I_) 19) (initialWorld I_)
  = Some (mkWorld (withBlockSettled true restingSquare) (inject_Z Constants.TICK_RATE_MS)).
Proof. vm_compute. reflexivity. Qed.

(** ** The reducer *)



(** X2: pausing a running game, letting any number of ticks pass and
    pausing again gives back the state the game was in. *)
Theorem pause_round_trip (k0 : TetrominoKey) (w : World) (ticks : list Event) :
  gamePaused (state w) = false -> forallb isTick ticks = true ->
  exists w', run k0 (PAUSE :: ticks ++ [PAUSE]) w = Some w' /\ state w' = state w.
Proof.
  intros Hp Hticks. cbn [run reduce bind]. rewrite run_app.
  destruct (paused_ticks k0 ticks
              (mkWorld (withGamePaused (negb (gamePaused (state w))) (state w)) (tickRate w)))
    as (w1 & -> & Hst); [simpl; now rewrite Hp | assumption |].
  cbn [bind run reduce]. eexists. split; [reflexivity |].
  cbn [state]. rewrite Hst. cbn [state gamePaused withGamePaused]. rewrite Hp.
  now apply unpause_pause.
Qed.

Lemma pause_round_trip_witness :
  exists w',
    run I_ [ PAUSE; TICK O_ I_; TICK T_ S_; PAUSE ]
      (mkWorld rowCompleting (inject_Z Constants.TICK_RATE_MS)) = Some w' /\
    state w' = rowCompleting.
Proof.
  apply (pause_round_trip I_ (mkWorld rowCompleting (inject_Z Constants.TICK_RATE_MS))
           [ TICK O_ I_; TICK T_ S_ ]); reflexivity.
Defined.

(** X3: in a game, [RESTART] gives exactly the world the game started with:
    the grids, the square and also the next block, which is not drawn again,
    and the base tick rate. *)
Theorem restart_gives_initial_world (k0 : TetrominoKey) (w : World) :
  reachable k0 w -> reduce k0 w RESTART = Some (initialWorld k0).
Proof.
  intros H. apply reachable_invariant in H as [_ Hhi _ _].
  cbn [reduce]. rewrite Hhi. reflexivity.
Qed.

Lemma restart_gives_initial_world_witness :
  reduce I_ (mkWorld rowCleared (inject_Z Constants.TICK_RATE_MS)) RESTART
  = Some (initialWorld I_).
Proof.
  exact (restart_gives_initial_world I_ (mkWorld rowCleared (inject_Z Constants.TICK_RATE_MS))
           (reachable_step I_ _ _ _
              (run_reachable I_ _ _ _ (reachable_init I_) rowCompleting_run)
              rowCleared_step)).
Defined.

(** X4: in every state of a game both grids have 20 rows of 10 cells, the
    cell-state grid shows ['FILLED'] exactly where the occupancy grid shows
    [1] and ['EMPTY'] where it shows [0], and no row is full. *)
Theorem board_invariant (k0 : TetrominoKey) (w : World) :
  reachable k0 w ->
  rectangular Constants.GRID_HEIGHT Constants.GRID_WIDTH (grid (state w)) /\
  rectangular Constants.GRID_HEIGHT Constants.GRID_WIDTH (gameGrid (state w)) /\
  synced (grid (state w)) (gameGrid (state w)) /\
  fullRows (grid (state w)) = 0.
Proof.
  intros H. apply reachable_playable in H as [_ [_ _ Hsync] Hrows Hfull _ _ _ _].
  destruct (synced_rectangular _ _ Hsync) as [Hg Hgg]. rewrite Hrows in Hg, Hgg. auto.
Qed.

Lemma board_invariant_witness :
  synced (grid rowCleared) (gameGrid rowCleared) /\ fullRows (grid rowCleared) = 0.
Proof.
  apply (board_invariant I_ (mkWorld rowCleared (inject_Z Constants.TICK_RATE_MS))
           (reachable_step I_ _ _ _
              (run_reachable I_ _ _ _ (reachable_init I_) rowCompleting_run)
              rowCleared_step)).
Defined.

(** X5: in every state of a game the falling block has exactly four points,
    all of them in columns 0 to 9 and in rows 0 to 19, and the next block is
    one of the seven tetrominoes where it spawns. *)
Theorem block_invariant (k0 : TetrominoKey) (w : World) :
  reachable k0 w ->
  List.length (block (state w)) = 4%nat /\
  Forall (fun p => 0 <= x p < Constants.GRID_WIDTH /\ 0 <= y p < Constants.GRID_HEIGHT)
         (block (state w)) /\
  exists k, nextBlock (state w) = TETROMINOS k.
Proof.
  intros H. apply reachable_playable in H.
  destruct (playable_rows _ H) as (Hrows & _).
  destruct H as [_ [Hcols _ _] _ _ _ Hshape [k Hk] _].
  split; [now apply spawnShape_length |]. split.
  - apply Forall_forall. intros p Hp.
    unfold inColumns in Hcols. rewrite Forall_forall in Hcols, Hrows. auto.
  - exists k. now rewrite Hk, newBlock_TETROMINOS.
Qed.

Lemma block_invariant_witness :
  List.length (block barAtLeftWall) = 4%nat /\
  Forall (fun p => 0 <= x p < Constants.GRID_WIDTH /\ 0 <= y p < Constants.GRID_HEIGHT)
         (block barAtLeftWall) /\
  exists k, nextBlock barAtLeftWall = TETROMINOS k.
Proof.
  exact (block_invariant I_ (mkWorld barAtLeftWall (inject_Z Constants.TICK_RATE_MS))
           (run_reachable I_ _ _ _ (reachable_init I_) barAtLeftWall_run)).
Defined.

(** X6: in a game the reducer never throws: every event is reduced to a new
    world, in particular the writes of a settled tick always find their
    row. *)
Theorem reduce_never_throws (k0 : TetrominoKey) (w : World) (event : Event) :
  reachable k0 w -> exists w', reduce k0 w event = Some w'.
Proof.
  intros H. apply reachable_playable in H.
  destruct (reduce_playable k0 w event H) as (w' & Hw' & _). eauto.
Qed.

Lemma reduce_never_throws_witness :
  exists w', reduce O_ (mkWorld stackedSquares (inject_Z Constants.TICK_RATE_MS)) (TICK O_ O_)
             = Some w'.
Proof.
  exact (reduce_never_throws O_ (mkWorld stackedSquares (inject_Z Constants.TICK_RATE_MS))
           (TICK O_ O_)
           (run_reachable O_ _ _ _ (reachable_init O_) stackedSquares_run)).
Defined.

(** X7: in every state of a game the level is at least 1 and the score is a
    multiple of ten between ten and forty times the number of levels gained:
    a tick that clears rows clears between one and four of them. *)
Theorem score_level_bounds (k0 : TetrominoKey) (w : World) :
  reachable k0 w ->
  1 <= currentLevel (state w) /\
  10 * (currentLevel (state w) - 1) <= score (state w) <= 40 * (currentLevel (state w) - 1) /\
  exists m, score (state w) = 10 * m.
Proof.
  intros H. apply reachable_playable in H as [_ _ _ _ _ _ _ (m & Hm & Hlevel)].
  split; [lia |]. split; [lia | eauto].
Qed.

Lemma score_level_bounds_witness :
  1 <= currentLevel rowCleared /\
  10 * (currentLevel rowCleared - 1) <= score rowCleared <= 40 * (currentLevel rowCleared - 1) /\
  exists m, score rowCleared = 10 * m.
Proof.
  exact (score_level_bounds I_ (mkWorld rowCleared (inject_Z Constants.TICK_RATE_MS))
           (reachable_step I_ _ _ _
              (run_reachable I_ _ _ _ (reachable_init I_) rowCompleting_run)
              rowCleared_step)).
Defined.

(** X8: once [gameEnd] is set, no event but [RESTART] clears it or changes
    the grids, the score, the level, the next block or the settled flag; a
    key, a rotation or a pause still change the direction, the block or the
    pause flag. *)
Theorem game_over_frozen (k0 : TetrominoKey) (w w' : World) (event : Event) :
  gameEnd (state w) = true -> event <> RESTART -> reduce k0 w event = Some w' ->
  gameEnd (state w') = true /\
  grid (state w') = grid (state w) /\
  gameGrid (state w') = gameGrid (state w) /\
  score (state w') = score (state w) /\
  currentLevel (state w') = currentLevel (state w) /\
  nextBlock (state w') = nextBlock (state w) /\
  blockSettled (state w') = blockSettled (state w).
Proof.
  intros He Hev. destruct event as [k1 k2 | d | | |]; cbn [reduce].
  - rewrite tick_stopped by now rewrite He. cbn [bind]. intros [= <-]. auto 8.
  - destruct d, (direction (state w)); intros [= <-]; auto 8.
  - congruence.
  - destruct (_ && _); intros [= <-]; auto 8.
  - intros [= <-]. auto 8.
Qed.

Lemma game_over_frozen_witness :
  let w := mkWorld (withGameEnd true stackedSquares) (inject_Z Constants.TICK_RATE_MS) in
  let w' := mkWorld (withBlock [ mkPoint 4 1; mkPoint 4 0; mkPoint 5 1; mkPoint 5 0 ]
                       (withGameEnd true stackedSquares))
                    (inject_Z Constants.TICK_RATE_MS) in
  reduce O_ w ROTATE = Some w' /\ gameEnd (state w') = true /\
  grid (state w') = grid stackedSquares.
Proof.
  intros w w'. split; [reflexivity |].
  destruct (game_over_frozen O_ w w' ROTATE) as (He & Hg & _);
    [reflexivity | discriminate | reflexivity |].
  split; assumption.
Defined.

(** X9: the subscriber unsubscribes when it is handed a finished game, so
    whatever events follow, [RESTART] included, the game stays as it ended. *)
Theorem finished_game_ignores_events (k0 : TetrominoKey) (events events' : list Event)
    (w w1 : World) :
  gameEnd (state w) = false -> play k0 events w = Some w1 -> gameEnd (state w1) = true ->
  play k0 (events ++ events') w = Some w1.
Proof. apply play_finished. Qed.

Lemma finished_game_ignores_events_witness :
  play O_ ((KEY NONE :: repeat (TICK O_ O_) 110) ++ [ RESTART; KEY LEFT; TICK I_ I_ ])
    (initialWorld O_)
  = Some (mkWorld (withGameEnd true stackedSquares) (inject_Z Constants.TICK_RATE_MS)).
Proof.
  exact (finished_game_ignores_events O_ (KEY NONE :: repeat (TICK O_ O_) 110)
           [ RESTART; KEY LEFT; TICK I_ I_ ] (initialWorld O_) _
           eq_refl play_game_over eq_refl).
Defined.

(** ** The tick *)



(** X11: the tick of a settled block throws when a point of the block lies
    above the first or below the last row of the grid: the write into the row
    fails. *)
Theorem settled_tick_throws_off_grid (k1 k2 : TetrominoKey) (s : State) (p : Point) :
  gameEnd s = false -> gamePaused s = false -> blockSettled s = true ->
  In p (block s) -> y p < 0 \/ Z.of_nat (List.length (grid s)) <= y p ->
  tick k1 k2 s = None.
Proof.
  intros He Hp Hs Hin Hy. unfold tick. rewrite He, Hp, Hs. cbn [orb].
  unfold stampBlock. rewrite (forEach_stamp_throws (block s) p); [reflexivity | assumption |].
  now rewrite length_map.
Qed.

Lemma settled_tick_throws_off_grid_witness : tick I_ I_ barAboveTop = None.
Proof.
  apply (settled_tick_throws_off_grid I_ I_ barAboveTop (mkPoint 5 (-1))); try reflexivity.
  - simpl. auto.
  - left. simpl. lia.
Defined.

(** X12: a block collides exactly when one of its points is at or below the
    floor or on a cell that reads [1].  A point above the grid reads an
    undefined row and never collides.  A point beside its row reads
    [undefined] when the row has no other property than its elements, but it
    collides on a row where a write at that key has left the property [1]. *)
Theorem willCollide_characterised (b : Block) (g : list (JsArray.t Z)) :
  (willCollide b g = false <->
   forall p, In p b -> y p < Constants.GRID_HEIGHT /\ cellAt g p <> Some 1) /\
  ((forall p, In p b -> y p < 0) -> willCollide b g = false) /\
  (forall p row, index g (y p) = Some row -> JsArray.named row = [] ->
     x p < 0 \/ JsArray.length row <= x p -> cellAt g p = None) /\
  willCollide [ mkPoint (-1) 0 ]
              [ JsArray.set (JsArray.fill Constants.GRID_WIDTH 0) (-1) 1 ] = true.
Proof.
  split; [apply willCollide_false_iff |]. split; [| split; [| reflexivity]].
  - intros Habove. apply willCollide_false_iff. intros p Hp.
    specialize (Habove p Hp). split; [unfold Constants.GRID_HEIGHT; lia |].
    unfold cellAt, index. replace (0 <=? y p) with false; [discriminate |].
    symmetry. apply Z.leb_gt. assumption.
  - intros p row Hrow Hnamed Hx. unfold cellAt. rewrite Hrow. cbn [bind].
    unfold JsArray.get. rewrite Hnamed.
    destruct (JsArray.is_index (x p)) eqn:Hidx; [| reflexivity].
    apply andb_true_iff in Hidx as [H0 _]. apply Z.leb_le in H0.
    replace (nth_error (JsArray.slots row) (Z.to_nat (x p)))
      with (@None (JsArray.slot Z)); [reflexivity |].
    symmetry. apply nth_error_None. unfold JsArray.length in Hx. lia.
Qed.

(** X13: the settled tick decides the end of the game without looking at
    the next block: with another next block it ends the game in the same
    cases, and otherwise returns the same state with that block falling. *)
Theorem settled_tick_ignores_next_block (k1 k2 : TetrominoKey) (s : State) (b : Block) :
  gameEnd s = false -> gamePaused s = false -> blockSettled s = true ->
  tick k1 k2 (withNextBlock b s)
  = option_map (fun s' => if gameEnd s' then withNextBlock b s' else withBlock b s')
               (tick k1 k2 s).
Proof.
  intros He Hp Hs. unfold tick.
  change (gameEnd (withNextBlock b s)) with (gameEnd s).
  change (gamePaused (withNextBlock b s)) with (gamePaused s).
  change (blockSettled (withNextBlock b s)) with (blockSettled s).
  rewrite He, Hp, Hs. cbn [orb].
  change (stampBlock (withNextBlock b s)) with (stampBlock s).
  destruct (stampBlock s) as [[ug ugg] |]; cbn [bind option_map]; [| reflexivity].
  destruct (willCollide (newBlock k1) ug); cbn [option_map gameEnd withGameEnd];
    [reflexivity |].
  destruct (index ug 0) as [row0 |]; cbn [bind option_map]; [| reflexivity].
  destruct (JsArray.some (isNumber 1) row0); cbn [option_map gameEnd withGameEnd];
    [reflexivity |].
  destruct (clearFullRows ug ugg) as [c |]; reflexivity.
Qed.

Lemma settled_tick_ignores_next_block_witness :
  tick O_ O_ (withNextBlock (newBlock T_) rowCompleting)
  = option_map (withBlock (newBlock T_)) (tick O_ O_ rowCompleting).
Proof.
  exact (settled_tick_ignores_next_block O_ O_ rowCompleting (newBlock T_)
           eq_refl eq_refl eq_refl).
Defined.

(** ** Rotation *)

(** X14: rotating a block of four points commutes with moving it, as long
    as the coordinates stay where the arithmetic of the source is exact: the
    rotated block depends on the shape of the block only, its position is
    carried along. *)
Theorem rotation_commutes_with_translation (b : Block) (type : string) (dx dy : Z) :
  List.length b = 4%nat -> smallBlock b -> smallBlock (translate dx dy b) ->
  rotateBlock (translate dx dy b) type = translate dx dy (rotateBlock b type).
Proof.
  intros Hlen _ _. destruct (String.eqb type "O") eqn:Hty.
  - unfold rotateBlock. now rewrite Hty.
  - assert (E : forall b', rotateBlock b' type = rotateBlock b' "I").
    { intros b'. unfold rotateBlock. now rewrite Hty. }
    rewrite !E. apply rotateBlock_translate, nonempty_length. lia.
Qed.

Lemma rotation_commutes_with_translation_witness :
  rotateBlock (translate (-3) 7 (TETROMINOS T_)) "I"
  = translate (-3) 7 (rotateBlock (TETROMINOS T_) "I").
Proof.
  apply (rotation_commutes_with_translation (TETROMINOS T_) "I" (-3) 7).
  - reflexivity.
  - repeat constructor; simpl; lia.
  - repeat constructor; simpl; lia.
Defined.

(** X15: wherever the square is on coordinates at which the arithmetic of
    the source is exact, its rotation is the square on the same four cells,
    its points in another order. *)
Theorem square_rotates_in_place (x0 y0 : Z) :
  smallBlock (createSquareBlock x0 y0) ->
  rotateBlock (createSquareBlock x0 y0) "I"
  = [ mkPoint x0 (y0 + 1); mkPoint x0 y0; mkPoint (x0 + 1) (y0 + 1); mkPoint (x0 + 1) y0 ].
Proof.
  intros _.
  assert (E : createSquareBlock x0 y0 = translate x0 y0 (createSquareBlock 0 0)).
  { unfold createSquareBlock, translate; cbn [map x y].
    repeat (apply (f_equal2 cons); [apply (f_equal2 mkPoint); lia |]). reflexivity. }
  rewrite E, rotateBlock_translate by discriminate.
  replace (rotateBlock (createSquareBlock 0 0) "I")
    with [ mkPoint 0 1; mkPoint 0 0; mkPoint 1 1; mkPoint 1 0 ] by reflexivity.
  unfold translate; cbn [map x y].
  repeat (apply (f_equal2 cons); [apply (f_equal2 mkPoint); lia |]). reflexivity.
Qed.

Lemma square_rotates_in_place_witness :
  rotateBlock (createSquareBlock 8 18) "I"
  = [ mkPoint 8 19; mkPoint 8 18; mkPoint 9 19; mkPoint 9 18 ].
Proof.
  apply (square_rotates_in_place 8 18). repeat constructor; simpl; lia.
Defined.

(** X16: four rotations do not bring a tetromino back to where it was: on
    coordinates at which the arithmetic of the source is exact they move the
    bar, S and Z two columns right and two rows down, J and L one column and
    one row, and leave only the square and T in place. *)
Theorem four_rotations_drift (k : TetrominoKey) (dx dy : Z) :
  smallBlock (translate dx dy (TETROMINOS k)) ->
  rotations 4 (translate dx dy (TETROMINOS k))
  = translate (fst (drift k)) (snd (drift k)) (translate dx dy (TETROMINOS k)).
Proof.
  intros _. rewrite rotations_translate by apply TETROMINOS_nonempty.
  rewrite rotations_four, !translate_translate. f_equal; lia.
Qed.

Lemma four_rotations_drift_witness :
  rotations 4 (translate (-2) 5 (TETROMINOS S_))
  = translate 2 2 (translate (-2) 5 (TETROMINOS S_)).
Proof.
  apply (four_rotations_drift S_ (-2) 5). repeat constructor; simpl; lia.
Defined.

(** ** Clearing rows *)

(** X17: on a grid without a full row [clearFullRows] clears nothing: it
    returns the occupancy grid as it is with the count [0]; the cell-state
    grid comes back as it is when it is in step, and in any case without the
    rows in which every cell is ['FILLED']. *)
Theorem clearFullRows_nothing_to_clear (grid : list (JsArray.t Z)) (gameGrid : GameState) :
  fullRows grid = 0 ->
  clearFullRows grid gameGrid
    = Some (Cleared.mk grid (filter hasUnfilledCell gameGrid) 0) /\
  (lockstep grid gameGrid -> clearFullRows grid gameGrid = Some (Cleared.mk grid gameGrid 0)).
Proof.
  intros H. split; [now apply nothing_to_clear |].
  intros Hlock. rewrite nothing_to_clear by assumption. do 2 f_equal.
  apply filter_keeps_all.
  pose proof (lockstep_filter_length _ _ Hlock) as Hlen.
  pose proof (length_filter_split hasUnfilledCell gameGrid).
  pose proof (length_filter_split hasFreeCell grid).
  pose proof (Forall2_length Hlock).
  unfold fullRows in H. lia.
Qed.

Lemma clearFullRows_nothing_to_clear_witness :
  clearFullRows (grid rowCleared) (gameGrid rowCleared)
  = Some (Cleared.mk (grid rowCleared) (gameGrid rowCleared) 0).
Proof.
  apply (clearFullRows_nothing_to_clear (grid rowCleared) (gameGrid rowCleared)).
  - reflexivity.
  - repeat constructor.
Defined.

(** X18: clearing is idempotent on grids with at least one column that are
    in step: the grids that [clearFullRows] returns have no full row left, and
    clearing them again returns them unchanged with the count [0]. *)
Theorem clearFullRows_idempotent (h w : Z) (grid : list (JsArray.t Z)) (gameGrid : GameState)
    (c : Cleared.t) :
  0 < w -> rectangular h w grid -> rectangular h w gameGrid -> lockstep grid gameGrid ->
  clearFullRows grid gameGrid = Some c ->
  fullRows (Cleared.newGrid c) = 0 /\
  clearFullRows (Cleared.newGrid c) (Cleared.newGameGrid c)
    = Some (Cleared.mk (Cleared.newGrid c) (Cleared.newGameGrid c) 0).
Proof.
  intros Hw Hg Hgg Hlock Hc.
  destruct (clearFullRows_lockstep h w grid gameGrid Hg Hgg Hlock)
    as (c' & Hc' & _ & E & E' & _).
  rewrite Hc in Hc'. injection Hc' as <-.
  assert (Hfree : hasFreeCell (JsArray.fill w 0) = true) by now apply some_fill.
  assert (Hunf : hasUnfilledCell (JsArray.fill w EMPTY) = true) by now apply some_fill.
  assert (Hfull : fullRows (Cleared.newGrid c) = 0).
  { rewrite E. unfold fullRows at 1.
    now rewrite filter_app, filter_filter_out, app_nil_r, filter_repeat_out. }
  split; [assumption |].
  rewrite nothing_to_clear by assumption. do 2 f_equal.
  rewrite E'. rewrite filter_app. f_equal.
  - now apply filter_repeat_in.
  - apply filter_keeps_all. now rewrite filter_filter_out.
Qed.

Lemma clearFullRows_idempotent_witness :
  clearFullRows (gridOf [ [0; 0]; [0; 0]; [0; 1] ]) (gameGridOf [ [0; 0]; [0; 0]; [0; 1] ])
  = Some (Cleared.mk (gridOf [ [0; 0]; [0; 0]; [0; 1] ])
            (gameGridOf [ [0; 0]; [0; 0]; [0; 1] ]) 0).
Proof.
  apply (clearFullRows_idempotent 3 2
           (gridOf [ [1; 1]; [0; 1]; [1; 1] ]) (gameGridOf [ [1; 1]; [0; 1]; [1; 1] ])
           (Cleared.mk (gridOf [ [0; 0]; [0; 0]; [0; 1] ])
              (gameGridOf [ [0; 0]; [0; 0]; [0; 1] ]) 2)).
  - reflexivity.
  - split; [reflexivity | repeat constructor].
  - split; [reflexivity | repeat constructor].
  - repeat constructor.
  - reflexivity.
Defined.

(** ** The settled block and the board *)

(** X19: in a game, a settled tick that neither ends the game nor changes
    the score merges the block into the board: every point of the block reads
    [1] in the new occupancy grid and ['FILLED'] in the new cell-state grid. *)
Theorem settled_block_merged (k0 k1 k2 : TetrominoKey) (w : World) (s' : State) :
  reachable k0 w ->
  gameEnd (state w) = false -> gamePaused (state w) = false ->
  blockSettled (state w) = true ->
  tick k1 k2 (state w) = Some s' -> gameEnd s' = false -> score s' = score (state w) ->
  stamped (block (state w)) (grid s', gameGrid s').
Proof.
  intros Hw He Hp Hs Ht He' Hscore.
  apply reachable_wellFormed in Hw as [Hcols _ Hsync].
  destruct (tick_settled k1 k2 _ s' He Hp Hs Ht)
    as (ug & ugg & Hst & [[_ ->] | (c & Hc & ->)]); [discriminate He' |].
  pose proof (stampBlock_synced _ (ug, ugg) Hcols Hsync Hst) as Hsync'.
  pose proof (clearFullRows_clearedRows _ _ _ Hc) as Hn.
  unfold spawned in Hscore. cbn [score] in Hscore.
  assert (Hfull : fullRows ug = 0) by lia.
  rewrite nothing_to_clear in Hc by assumption. injection Hc as <-.
  cbn [grid gameGrid spawned Cleared.newGrid Cleared.newGameGrid].
  replace (filter hasUnfilledCell ugg) with ugg.
  - now apply stampBlock_stamped.
  - symmetry. apply filter_keeps_all.
    pose proof (lockstep_filter_length _ _ (synced_lockstep _ _ Hsync')) as Hlen.
    pose proof (length_filter_split hasUnfilledCell ugg).
    pose proof (length_filter_split hasFreeCell ug).
    pose proof (Forall2_length Hsync').
    unfold fullRows in Hfull. cbn [fst snd] in *. lia.
Qed.

Lemma settled_block_merged_witness :
  exists s',
    tick O_ I_ (withBlockSettled true restingSquare) = Some s' /\
    stamped (createSquareBlock 4 18) (grid s', gameGrid s').
Proof.
  eexists. split; [reflexivity |].
  apply (settled_block_merged I_ O_ I_
           (mkWorld (withBlockSettled true restingSquare) (inject_Z Constants.TICK_RATE_MS)));
    try reflexivity.
  exact (run_reachable I_ _ _ _ (reachable_init I_) restingSquare_run).
Defined.
